(** * The execution-layer cut tool: discovery, version assignment, templates

    A shallow embedding of [scripts/execution_layer.py]: the feature-name
    validator of the command line ([feature]), the discovery and numbering of
    cuts ([discover_cuts]) and the expansion of the directives of
    [lib.template.rs] ([generate_lib] with its inner [substitute]).

    Text is modelled by [string]; its characters stand for the code points
    below 256, and [upper] is exact on ASCII.  Python exceptions are the
    [Raise] outcomes of the [result] type. *)

From Stdlib Require Import Bool Arith ZArith Lia List Ascii String.
From Stdlib Require Import Decimal DecimalString DecimalNat.
From Stdlib Require Import Sorting.Sorted Sorting.Permutation.
From Stdlib Require Import Lists.Finite OrderedTypeEx.
Import ListNotations.

Open Scope list_scope.
Open Scope string_scope.

(* ================================================================= *)
(** ** Exceptions *)

(** The exceptions the script raises.  [OutOfFuel] is not one of them: it
    is the outcome of a scan of the model that is given too little fuel,
    which [re_sub] never is. *)
Inductive exn : Type :=
| ValueError
| AssertionError (msg : string)
| ArgumentTypeError (msg : string)
| OutOfFuel.

Inductive result (A : Type) : Type :=
| Ok (a : A)
| Raise (e : exn).

Arguments Ok {A} a.
Arguments Raise {A} e.

Definition bind {A B : Type} (r : result A) (k : A -> result B) : result B :=
  match r with
  | Ok a => k a
  | Raise e => Raise e
  end.

Notation "x <- r ;; k" := (bind r (fun x => k))
  (at level 61, r at next level, right associativity).

(** Left-to-right evaluation of a comprehension whose body may raise. *)
Fixpoint mapM {A B : Type} (f : A -> result B) (l : list A) : result (list B) :=
  match l with
  | [] => Ok []
  | x :: l' => y <- f x ;; ys <- mapM f l' ;; Ok (y :: ys)
  end.

(* ================================================================= *)
(** ** Characters and strings *)

Definition code (c : ascii) : nat := nat_of_ascii c.

Definition in_range (lo hi c : ascii) : bool :=
  ((code lo <=? code c) && (code c <=? code hi))%nat.

Definition is_digit (c : ascii) : bool := in_range "0" "9" c.
Definition is_lower (c : ascii) : bool := in_range "a" "z" c.
Definition is_upper (c : ascii) : bool := in_range "A" "Z" c.

(** [\s] of [re]: the white space of Unicode among the code points
    below 256. *)
Definition is_space (c : ascii) : bool :=
  (((9 <=? code c) && (code c <=? 13))
   || ((28 <=? code c) && (code c <=? 32))
   || (code c =? 133) || (code c =? 160))%nat.

(** The blanks [int] strips from both ends of its text: the white space
    of ASCII, from the tab to the carriage return and the space, and
    U+0085 and U+00A0.  The separators U+001C to U+001F are white space
    for [re], yet [int] does not strip them. *)
Definition is_blank (c : ascii) : bool :=
  (((9 <=? code c) && (code c <=? 13))
   || (code c =? 32) || (code c =? 133) || (code c =? 160))%nat.

Definition newline : ascii := ascii_of_nat 10.
Definition nl : string := String newline "".

Fixpoint forallb_string (p : ascii -> bool) (s : string) : bool :=
  match s with
  | "" => true
  | String c s' => p c && forallb_string p s'
  end.

(** The longest prefix made of characters in [p], and what follows it. *)
Fixpoint span (p : ascii -> bool) (s : string) : string * string :=
  match s with
  | "" => ("", "")
  | String c s' =>
      if p c then let (a, b) := span p s' in (String c a, b) else ("", s)
  end.

Fixpoint strip_prefix (p s : string) : option string :=
  match p, s with
  | "", _ => Some s
  | String a p', String b s' => if (a =? b)%char then strip_prefix p' s' else None
  | String _ _, "" => None
  end.

(** [s[1:]] *)
Definition tail (s : string) : string :=
  match s with
  | "" => ""
  | String _ s' => s'
  end.

(** [str.upper] on ASCII text: the letters [a] to [z] are the cased
    characters it maps.  From U+0080 on [str.upper] maps cased characters
    as well, some of them out of the code points below 256; there the
    model does not follow it. *)
Definition upper_char (c : ascii) : ascii :=
  if is_lower c then ascii_of_nat (code c - 32) else c.

Fixpoint upper (s : string) : string :=
  match s with
  | "" => ""
  | String c s' => String (upper_char c) (upper s')
  end.

(** [sep.join(parts)] is [String.concat sep parts]. *)
Definition join (sep : string) (parts : list string) : string :=
  String.concat sep parts.

(* ----------------------------------------------------------------- *)
(** *** [str] and [int] on integers *)

Definition str_nat (n : nat) : string :=
  NilEmpty.string_of_uint (Nat.to_uint n).

(** [str(z)] *)
Definition str (z : Z) : string :=
  if (z <? 0)%Z then "-" ++ str_nat (Z.abs_nat z) else str_nat (Z.to_nat z).

Fixpoint lstrip (s : string) : string :=
  match s with
  | "" => ""
  | String c s' => if is_blank c then lstrip s' else s
  end.

Fixpoint rstrip (s : string) : string :=
  match s with
  | "" => ""
  | String c s' =>
      match rstrip s' with
      | "" => if is_blank c then "" else String c ""
      | t => String c t
      end
  end.

Definition digit_value (c : ascii) : Z := Z.of_nat (code c - 48).

(** The digits of a decimal literal: at least one digit, single
    underscores allowed between digits only. *)
Fixpoint int_body (after_digit : bool) (s : string) (acc : Z) : option Z :=
  match s with
  | "" => if after_digit then Some acc else None
  | String c s' =>
      if is_digit c then int_body true s' (10 * acc + digit_value c)%Z
      else if (c =? "_")%char && after_digit then int_body false s' acc
      else None
  end.

(** [int(s)] in base ten: surrounding blanks, an optional sign, the
    digits.  The limit of [int] on the number of digits (4300 unless set
    otherwise) is left out: a file name is shorter. *)
Definition int (s : string) : result Z :=
  let t := lstrip (rstrip s) in
  let (sign, body) :=
    match t with
    | String "-" b => ((-1)%Z, b)
    | String "+" b => (1%Z, b)
    | _ => (1%Z, t)
    end in
  match int_body false body 0 with
  | Some n => Ok (sign * n)%Z
  | None => Raise ValueError
  end.

(* ================================================================= *)
(** ** The command line: [feature] *)

(** [re.match(r"[a-z][a-zA-Z0-9_]*", f)]: [re.match] anchors the pattern at
    the start of [f] only, so the match is the lower-case letter followed by
    the longest run of word characters, whatever comes after that run. *)
Definition is_word (c : ascii) : bool :=
  is_lower c || is_upper c || is_digit c || (c =? "_")%char.

Definition match_feature (f : string) : option string :=
  match f with
  | String c f' => if is_lower c then Some (String c (fst (span is_word f'))) else None
  | "" => None
  end.

Definition feature (f : string) : result string :=
  match match_feature f with
  | Some _ => Ok f
  | None => Raise (ArgumentTypeError ("Invalid feature name: '" ++ f ++ "'"))
  end.

(* ================================================================= *)
(** ** Discovery and version assignment: [discover_cuts] *)

(** An entry of [sui-execution/src] as [iterdir] yields it: whether it is a
    regular file, and its [stem]. *)
Record entry : Type := { is_file : bool; stem : string }.

Definition file (s : string) : entry := {| is_file := true; stem := s |}.

Definition NOT_A_CUT : list string :=
  ["executor"; "lib"; "lib.template"; "tests"; "verifier"].

Definition mem (s : string) (l : list string) : bool :=
  existsb (String.eqb s) l.

(** The registry entry [(version, constant name, module)]. *)
Definition cut : Type := string * option string * string.

Definition cut_version (c : cut) : string := fst (fst c).
Definition cut_feature (c : cut) : option string := snd (fst c).
Definition cut_module (c : cut) : string := snd c.

(** [re.match(r"latest|v[0-9]+", stem)], anchored at the start only. *)
Definition match_snapshot (s : string) : bool :=
  String.prefix "latest" s
  || match s with
     | String "v" (String d _) => is_digit d
     | _ => false
     end.

(** The loop over [src.iterdir()]. *)
Fixpoint classify (listing : list entry) : list string * list string :=
  match listing with
  | [] => ([], [])
  | f :: rest =>
      let (snapshots, features) := classify rest in
      if negb (is_file f) || mem (stem f) NOT_A_CUT then (snapshots, features)
      else if match_snapshot (stem f) then (stem f :: snapshots, features)
      else (snapshots, stem f :: features)
  end.

(** The sort key of a snapshot: an [int], or [float("inf")]. *)
Inductive ordinal : Type :=
| Num (n : Z)
| Inf.

Definition ordinal_lt (a b : ordinal) : bool :=
  match a, b with
  | Num x, Num y => (x <? y)%Z
  | Num _, Inf => true
  | Inf, _ => false
  end.

Definition snapshot_key (s : string) : result ordinal :=
  if (s =? "latest")%string then Ok Inf
  else n <- int (tail s) ;; Ok (Num n).

Definition feature_key (s : string) : string := s.

(** [list.sort(key=...)]: the keys are computed first, then the list is
    sorted stably, comparing keys with [<] only.  A stable sort has one
    possible result; insertion from the right computes it. *)
Section Sort.
Context {A K : Type} (lt : K -> K -> bool).

Fixpoint insert (x : K * A) (l : list (K * A)) : list (K * A) :=
  match l with
  | [] => [x]
  | y :: l' => if lt (fst y) (fst x) then y :: insert x l' else x :: y :: l'
  end.

Fixpoint sort_keyed (l : list (K * A)) : list (K * A) :=
  match l with
  | [] => []
  | x :: l' => insert x (sort_keyed l')
  end.

(** The order in which a sorted list is: no key is below an earlier one. *)
Definition key_le (x y : K * A) : Prop := lt (fst y) (fst x) = false.
End Sort.

(** A snapshot with its key. *)
Definition keyed (s : string) : result (ordinal * string) :=
  k <- snapshot_key s ;; Ok (k, s).

Definition sort_snapshots (snapshots : list string) : result (list string) :=
  keys <- mapM keyed snapshots ;;
  Ok (map snd (sort_keyed ordinal_lt keys)).

Definition sort_features (features : list string) : list string :=
  map snd (sort_keyed String.ltb (map (fun s => (feature_key s, s)) features)).

(** [max(int(v) for (v, _, _) in cuts)] *)
Definition max_version (cuts : list cut) : result Z :=
  vs <- mapM (fun c => int (cut_version c)) cuts ;;
  match vs with
  | [] => Raise ValueError
  | v :: vs' => Ok (fold_left Z.max vs' v)
  end.

(** The loop over the sorted snapshots; [cuts] is the list built so far. *)
Fixpoint assign_snapshots (snapshots : list string) (cuts : list cut)
  : result (list cut) :=
  match snapshots with
  | [] => Ok cuts
  | mod_ :: rest =>
      if negb (mod_ =? "latest")%string
      then assign_snapshots rest (cuts ++ [(tail mod_, None, mod_)])%list
      else
        m <- max_version cuts ;;
        assign_snapshots rest (cuts ++ [(str (1 + m), None, "latest")])%list
  end.

Definition feature_version (i : nat) : string :=
  if (0 <? i)%nat then "u64::MAX - " ++ str (Z.of_nat i) else "u64::MAX".

(** The loop over [enumerate(features)], from index [i]. *)
Fixpoint assign_features (i : nat) (features : list string) : list cut :=
  match features with
  | [] => []
  | f :: rest => (feature_version i, Some (upper f), f) :: assign_features (S i) rest
  end.

Definition discover_cuts (listing : list entry) : result (list cut) :=
  let (snapshots, features) := classify listing in
  snapshots <- sort_snapshots snapshots ;;
  let features := sort_features features in
  cuts <- assign_snapshots snapshots [] ;;
  Ok (cuts ++ assign_features 0 features)%list.

(* ================================================================= *)
(** ** Template substitution: [generate_lib] *)

Definition is_directive_char (c : ascii) : bool :=
  is_upper c || (c =? "_")%char.

(** One attempt, at the start of a line, of the pattern of [generate_lib]:
    a group of [\s], any number of them, then [// \$], then a group of one
    or more of [A-Z_], then the end of the line.  The result is the two
    groups and the text after the match.  Both runs are greedy, and giving
    characters back cannot help: after a shorter run of [\s] comes a blank
    where [/] is required, after a shorter run of [A-Z_] comes a directive
    character where the line has to end.  As [\s] matches a newline, the
    first group takes in the blank lines before the directive line. *)
Definition match_directive (s : string) : option (string * string * string) :=
  let (spc, s1) := span is_space s in
  match strip_prefix "// $" s1 with
  | None => None
  | Some s2 =>
      let (var, rest) := span is_directive_char s2 in
      match var, rest with
      | "", _ => None
      | _, "" => Some (spc, var, rest)
      | _, String c _ =>
          if (c =? newline)%char then Some (spc, var, rest) else None
      end
  end.

(** [re.sub(pattern, repl, template, flags=re.MULTILINE)] for the pattern
    above: the text is scanned from the left; where a line starts ([bol])
    the pattern is tried, a match is replaced by [repl] of its groups and
    the scan resumes after it; otherwise one character is copied.  Each
    step consumes a character at least, so the length of the text and one
    more is fuel enough. *)
Fixpoint sub_from (fuel : nat) (repl : string -> string -> result string)
    (bol : bool) (s : string) : result string :=
  match fuel with
  | O => Raise OutOfFuel
  | S fuel' =>
      match (if bol then match_directive s else None) with
      | Some (spc, var, rest) =>
          text <- repl spc var ;;
          out <- sub_from fuel' repl false rest ;;
          Ok (text ++ out)
      | None =>
          match s with
          | "" => Ok ""
          | String c s' =>
              out <- sub_from fuel' repl (c =? newline)%char s' ;;
              Ok (String c out)
          end
      end
  end.

(** The scan of [s] with fuel enough for its length. *)
Definition scan (repl : string -> string -> result string)
    (bol : bool) (s : string) : result string :=
  sub_from (S (String.length s)) repl bol s.

Definition re_sub (repl : string -> string -> result string)
    (template : string) : result string :=
  scan repl true template.

(** [feature or version]: [None] and the empty string are false. *)
Definition or_else (feature : option string) (version : string) : string :=
  match feature with
  | Some f => if (f =? "")%string then version else f
  | None => version
  end.

Definition executor (spc version cut_ : string) : string :=
  spc ++ version ++ " => Arc::new(" ++ cut_ ++ "::Executor::new(" ++ nl
  ++ spc ++ "    protocol_config," ++ nl
  ++ spc ++ "    paranoid_type_checks," ++ nl
  ++ spc ++ "    silent," ++ nl
  ++ spc ++ ")?)," ++ nl.

Definition mod_line (spc : string) (c : cut) : string :=
  spc ++ "mod " ++ cut_module c ++ ";".

Definition const_lines (spc : string) (c : cut) : list string :=
  match cut_feature c with
  | Some feature =>
      [spc ++ "pub const " ++ feature ++ ": u64 = " ++ cut_version c ++ ";"]
  | None => []
  end.

Definition executor_entry (spc : string) (c : cut) : string :=
  executor spc (or_else (cut_feature c) (cut_version c)) (cut_module c).

Definition verifier_entry (spc : string) (c : cut) : string :=
  let call := "Verifier::new(protocol_config, is_metered, metrics)" in
  spc ++ or_else (cut_feature c) (cut_version c)
  ++ " => Box::new(" ++ cut_module c ++ "::" ++ call ++ "),".

(** The closure [substitute(m)] with [spc = m.group(1)], [var = m.group(2)]. *)
Definition substitute (cuts : list cut) (spc var : string) : result string :=
  if (var =? "GENERATED_MESSAGE")%string then
    let cmd := "./scripts/execution-layer" in
    Ok (spc ++ "// DO NOT MODIFY, Generated by " ++ cmd)
  else if (var =? "MOD_CUTS")%string then
    Ok (join "" (map (mod_line spc) cuts))
  else if (var =? "FEATURE_CONSTS")%string then
    Ok (join "" (flat_map (const_lines spc) cuts))
  else if (var =? "EXECUTOR_CUTS")%string then
    Ok (join nl (map (executor_entry spc) cuts))
  else if (var =? "VERIFIER_CUTS")%string then
    Ok (join nl (map (verifier_entry spc) cuts))
  else Raise (AssertionError ("Don't know how to substitute " ++ var)).

(** The text [generate_lib] writes to [lib.rs], from the directory listing
    and the text of [lib.template.rs]. *)
Definition generate_lib (listing : list entry) (template : string)
  : result string :=
  cuts <- discover_cuts listing ;;
  re_sub (substitute cuts) template.

Definition known_directives : list string :=
  ["GENERATED_MESSAGE"; "MOD_CUTS"; "FEATURE_CONSTS"; "EXECUTOR_CUTS";
   "VERIFIER_CUTS"].

(* ================================================================= *)
(** ** Notions of the specification *)

(** A snapshot name of the specification: the whole name is [latest], or
    [v] followed by one or more digits. *)
Definition is_snapshot_name (s : string) : bool :=
  (s =? "latest")%string
  || match s with
     | String "v" ds => negb (ds =? "")%string && forallb_string is_digit ds
     | _ => false
     end.

(** A lowercase-leading identifier: a lower-case letter, then letters,
    digits and underscores up to the end of the string. *)
Definition is_identifier (f : string) : bool :=
  match f with
  | String c f' => is_lower c && forallb_string is_word f'
  | "" => false
  end.

(** The order of the specification for feature cuts: creation time
    ascending, the name ascending as tie-break. *)
Definition created_lt (a b : Z * string) : bool :=
  (fst a <? fst b)%Z || ((fst a =? fst b)%Z && String.ltb (snd a) (snd b)).

Definition sort_by_creation (ctime : string -> Z) (features : list string)
  : list string :=
  map snd (sort_keyed created_lt (map (fun s => ((ctime s, s), s)) features)).

Definition is_snapshot_cut (c : cut) : bool :=
  match cut_feature c with
  | None => true
  | Some _ => false
  end.

Definition snapshot_cuts (cuts : list cut) : list cut :=
  filter is_snapshot_cut cuts.

Definition feature_cuts (cuts : list cut) : list cut :=
  filter (fun c => negb (is_snapshot_cut c)) cuts.

(** The versions of [snaps] are [0..=k], with [k + 1] the number of
    snapshot cuts, and [latest] has version [k]. *)
Definition contiguous_versions (snaps : list cut) : Prop :=
  let k := (List.length snaps - 1)%nat in
  Permutation (map cut_version snaps)
              (map (fun i => str (Z.of_nat i)) (seq 0 (S k)))
  /\ forall c, In c snaps -> cut_module c = "latest" ->
               cut_version c = str (Z.of_nat k).

(** The name of the numbered snapshot [i]. *)
Definition vname (i : nat) : string := "v" ++ str (Z.of_nat i).

Definition u64_MAX : Z := (2 ^ 64 - 1)%Z.

(** The value of a version token of the registry, read as the expression
    it is in the generated file: a literal, [u64::MAX], or
    [u64::MAX - n]. *)
Definition version_value (v : string) : option Z :=
  match strip_prefix "u64::MAX" v with
  | Some "" => Some u64_MAX
  | Some more =>
      match strip_prefix " - " more with
      | Some d =>
          match int d with
          | Ok n => Some (u64_MAX - n)%Z
          | Raise _ => None
          end
      | None => None
      end
  | None =>
      match int v with
      | Ok n => Some n
      | Raise _ => None
      end
  end.

(** [s.split("\n")] *)
Fixpoint lines (s : string) : list string :=
  match s with
  | "" => [""]
  | String c s' =>
      let ls := lines s' in
      if (c =? newline)%char then "" :: ls
      else String c (hd "" ls) :: tl ls
  end.

(** No two snapshot modules of the listing have the same sort key. *)
Definition distinct_ordinals (listing : list entry) : Prop :=
  forall s t k,
    In s (fst (classify listing)) -> In t (fst (classify listing)) ->
    snapshot_key s = Ok k -> snapshot_key t = Ok k -> s = t.

(** The start of a line: the start of the text, or just after a newline. *)
Definition at_line_start (pre : string) : Prop :=
  pre = "" \/ exists p, pre = p ++ nl.

(** The end of a line: the end of the text, or just before a newline. *)
Definition at_line_end (post : string) : Prop :=
  post = "" \/ exists p, post = nl ++ p.

(** [s] is empty or starts with a character outside [p]. *)
Definition stops (p : ascii -> bool) (s : string) : Prop :=
  match s with
  | "" => True
  | String c _ => p c = false
  end.

(** A directive line: blanks, the marker, an identifier of [A-Z_]. *)
Definition directive_line (spc var : string) : Prop :=
  forallb_string is_space spc = true
  /\ var <> "" /\ forallb_string is_directive_char var = true.

Definition has_newline (s : string) : bool :=
  negb (forallb_string (fun c => negb (c =? newline)%char) s).

(** A line of text: one line, not blank, and not a directive line. *)
Definition text_line (line : string) : Prop :=
  has_newline line = false
  /\ forallb_string is_space line = false
  /\ forall spc var, directive_line spc var -> line <> spc ++ "// $" ++ var.

(** What may stand before an empty line for the line to be matched from
    its start: nothing, or a text that ends with a line of text and its
    newline. *)
Definition ends_with_text (before : string) : Prop :=
  before = ""
  \/ exists pre line,
      before = pre ++ line ++ nl /\ at_line_start pre /\ text_line line.

(* ================================================================= *)
(** ** Further notions *)

(** The entries [discover_cuts] takes for cuts: the regular files whose
    stem is not a support module. *)
Definition is_cut_file (f : entry) : bool :=
  is_file f && negb (mem (stem f) NOT_A_CUT).

(** A text of ASCII characters, on which [upper] is [str.upper]. *)
Definition is_ascii (s : string) : bool :=
  forallb_string (fun c => (code c <? 128)%nat) s.

(** The version of the cut is read by [int]. *)
Definition parsable (c : cut) : Prop := exists a, int (cut_version c) = Ok a.

(** The lines of the entry of a cut in the executor table. *)
Definition executor_lines (spc : string) (c : cut) : list string :=
  [spc ++ or_else (cut_feature c) (cut_version c) ++ " => Arc::new("
       ++ cut_module c ++ "::Executor::new(";
   spc ++ "    protocol_config,";
   spc ++ "    paranoid_type_checks,";
   spc ++ "    silent,";
   spc ++ ")?),"].

(* ================================================================= *)
(** ** The manifest: [update_toml] *)

(** [pat in s], for a pattern that is not empty. *)
Fixpoint contains (pat s : string) : bool :=
  match strip_prefix pat s with
  | Some _ => true
  | None =>
      match s with
      | "" => false
      | String _ s' => contains pat s'
      end
  end.

(** [s.replace(old, new)], for an [old] that is not empty: the
    occurrences of [old] are replaced from the left, none overlapping
    another.  Every step consumes a character at least. *)
Fixpoint replace_from (fuel : nat) (old new s : string) : string :=
  match fuel with
  | O => s
  | S fuel' =>
      match strip_prefix old s with
      | Some rest => new ++ replace_from fuel' old new rest
      | None =>
          match s with
          | "" => ""
          | String c s' => String c (replace_from fuel' old new s')
          end
      end
  end.

Definition replace (old new s : string) : string :=
  replace_from (S (String.length s)) old new s.

(** [f.readlines()] on the text of a file: the lines with their
    newlines; the last one may have none. *)
Fixpoint readlines (s : string) : list string :=
  match s with
  | "" => []
  | String c s' =>
      let ls := readlines s' in
      if (c =? newline)%char then String c "" :: ls
      else match ls with
           | [] => [String c ""]
           | l :: ls' => String c l :: ls'
           end
  end.

(** What the loop of [update_toml] writes for one line: for a template
    line, a comment that mentions [$CUT], the line without its comment
    mark and with the feature for [$CUT]; then the line itself. *)
Definition toml_writes (feature line : string) : list string :=
  match strip_prefix "# " line with
  | Some uncommented =>
      if contains "$CUT" line
      then [replace "$CUT" feature uncommented; line]
      else [line]
  | None => [line]
  end.

(** The writes of [update_toml], for the lines read. *)
Definition update_toml (feature : string) (lines : list string) : list string :=
  flat_map (toml_writes feature) lines.

(** The text of the manifest after [update_toml], from its text before. *)
Definition update_toml_text (feature text : string) : string :=
  join "" (update_toml feature (readlines text)).

(** A template line of the manifest. *)
Definition is_template (line : string) : bool :=
  match strip_prefix "# " line with
  | Some _ => contains "$CUT" line
  | None => false
  end.

(** A line with its newline: text without a newline, then one. *)
Definition is_line (l : string) : Prop :=
  exists body, l = body ++ nl /\ has_newline body = false.

(* ================================================================= *)
(** ** The implementation module: [generate_impls] *)

(** The group and the marker [_latest::] of the pattern, at the head of
    [s]: the longest [x] without a newline such that [s] is [x], then
    [_latest::], then some [y]; the result is [(x, y)].  The star of the
    group is greedy, so a longer [x] is tried before the empty one. *)
Fixpoint split_use (s : string) : option (string * string) :=
  match s with
  | "" => None
  | String c s' =>
      match (if (c =? newline)%char then None else split_use s') with
      | Some (x, y) => Some (String c x, y)
      | None =>
          match strip_prefix "_latest::" s with
          | Some y => Some ("", y)
          | None => None
          end
      end
  end.

(** [re.sub] of [generate_impls] on one line, for a feature without a
    backslash (the replacement is a template, where a backslash starts
    an escape): the pattern is anchored at the start of the text, so
    there is one match at most. *)
Definition rewrite_use (feature line : string) : string :=
  match strip_prefix "use " line with
  | Some s =>
      match split_use s with
      | Some (x, y) => "use " ++ x ++ "_" ++ feature ++ "::" ++ y
      | None => line
      end
  | None => line
  end.

(** The lines [generate_impls] writes, for the lines of [latest.rs]. *)
Definition generate_impls (feature : string) (orig : list string) : list string :=
  map (rewrite_use feature) orig.

(** The text of the copy, from the text of [latest.rs]. *)
Definition generate_impls_text (feature text : string) : string :=
  join "" (generate_impls feature (readlines text)).

(* ================================================================= *)
(** * Properties *)

(* ================================================================= *)
(** ** The result monad *)

Lemma bind_Ok_inv {A B : Type} (r : result A) (k : A -> result B) (b : B) :
  bind r k = Ok b -> exists a, r = Ok a /\ k a = Ok b.
Proof. destruct r as [a | e]; simpl; [eauto | discriminate]. Qed.

Lemma mapM_Ok_map {A B : Type} (f : A -> result B) (g : A -> B) (l : list A) :
  (forall x, In x l -> f x = Ok (g x)) -> mapM f l = Ok (map g l).
Proof.
  induction l as [| x l IH]; intros H; simpl; [reflexivity |].
  rewrite (H x (or_introl eq_refl)); simpl.
  rewrite IH by (intros y Hy; apply H; now right).
  reflexivity.
Qed.

Lemma mapM_Ok_Forall2 {A B : Type} (f : A -> result B) (l : list A) (r : list B) :
  mapM f l = Ok r -> Forall2 (fun x y => f x = Ok y) l r.
Proof.
  revert r; induction l as [| x l IH]; intros r H; simpl in H.
  - injection H as <-. constructor.
  - apply bind_Ok_inv in H as (y & Hy & H).
    apply bind_Ok_inv in H as (ys & Hys & H).
    injection H as <-. constructor; auto.
Qed.

(** A comprehension over a rearranged list: it raises for both or for
    neither, and the results are rearranged alike. *)
Lemma mapM_Permutation {A B : Type} (f : A -> result B) (e0 : exn) (l1 l2 : list A) :
  (forall x e, f x = Raise e -> e = e0) ->
  Permutation l1 l2 ->
  (mapM f l1 = Raise e0 /\ mapM f l2 = Raise e0)
  \/ exists r1 r2, mapM f l1 = Ok r1 /\ mapM f l2 = Ok r2 /\ Permutation r1 r2.
Proof.
  intros Hf Hp.
  induction Hp as [| x l1 l2 Hp IH | x y l | l1 l2 l3 Hp1 IH1 Hp2 IH2].
  - right. exists [], []. repeat split; constructor.
  - simpl. destruct (f x) as [b | e] eqn:Ex; simpl.
    + destruct IH as [[-> ->] | (r1 & r2 & -> & -> & Hr)]; simpl.
      * now left.
      * right. exists (b :: r1), (b :: r2). repeat split. now constructor.
    + rewrite (Hf _ _ Ex). now left.
  - simpl.
    destruct (f x) as [b | e] eqn:Ex, (f y) as [c | e'] eqn:Ey; simpl;
      try rewrite (Hf _ _ Ex); try rewrite (Hf _ _ Ey).
    + destruct (mapM f l) as [r | e] eqn:El; simpl.
      * right. exists (c :: b :: r), (b :: c :: r). repeat split. apply perm_swap.
      * left. assert (e = e0) as ->; [| now split].
        clear - Hf El. revert e El.
        induction l as [| z l IH]; intros e El; simpl in El; [discriminate |].
        destruct (f z) as [d | e1] eqn:Ez; simpl in El.
        -- destruct (mapM f l) as [r | e2]; simpl in El; [discriminate |].
           injection El as <-. now apply IH.
        -- injection El as <-. now apply (Hf z).
    + now left.
    + now left.
    + now left.
  - destruct IH1 as [[-> H2] | (r1 & r2 & -> & H2 & Hr)].
    + destruct IH2 as [[_ ->] | (r2 & r3 & H2' & _ & _)]; [now left |].
      rewrite H2 in H2'. discriminate.
    + destruct IH2 as [[H2' _] | (r2' & r3 & H2' & -> & Hr')].
      * rewrite H2 in H2'. discriminate.
      * rewrite H2 in H2'. injection H2' as <-.
        right. exists r1, r3. repeat split. now apply perm_trans with r2.
Qed.

(* ================================================================= *)
(** ** The stable sort *)

Section SortFacts.
Context {A K : Type} (lt : K -> K -> bool).

(** [lt] is a strict total order. *)
Hypothesis lt_asym : forall a b, lt a b = true -> lt b a = false.
Hypothesis le_trans :
  forall a b c, lt b a = false -> lt c b = false -> lt c a = false.
Hypothesis le_antisym : forall a b, lt a b = false -> lt b a = false -> a = b.

Lemma insert_Permutation (x : K * A) (l : list (K * A)) :
  Permutation (insert lt x l) (x :: l).
Proof.
  induction l as [| y l IH]; simpl; [reflexivity |].
  destruct (lt (fst y) (fst x)); [| reflexivity].
  rewrite IH. apply perm_swap.
Qed.

Lemma sort_keyed_Permutation (l : list (K * A)) :
  Permutation (sort_keyed lt l) l.
Proof.
  induction l as [| x l IH]; simpl; [reflexivity |].
  rewrite insert_Permutation. now constructor.
Qed.

Lemma insert_sorted (x : K * A) (l : list (K * A)) :
  StronglySorted (key_le lt) l -> StronglySorted (key_le lt) (insert lt x l).
Proof.
  induction 1 as [| y l Hs IH Hy]; simpl.
  - repeat constructor.
  - destruct (lt (fst y) (fst x)) eqn:E.
    + constructor; [assumption |].
      rewrite Forall_forall in *. intros z Hz.
      apply (Permutation_in _ (insert_Permutation x l)) in Hz.
      destruct Hz as [<- | Hz]; [| now apply Hy].
      unfold key_le. now apply lt_asym.
    + constructor; [now constructor |].
      constructor; [exact E |].
      rewrite Forall_forall in *. intros z Hz.
      unfold key_le. apply le_trans with (fst y); [exact E | now apply Hy].
Qed.

Lemma sort_keyed_sorted (l : list (K * A)) :
  StronglySorted (key_le lt) (sort_keyed lt l).
Proof.
  induction l as [| x l IH]; simpl; [constructor | now apply insert_sorted].
Qed.

(** Two sorted arrangements of the same elements are equal when
    elements with the same key are equal. *)
Lemma sorted_unique (l1 l2 : list (K * A)) :
  StronglySorted (key_le lt) l1 -> StronglySorted (key_le lt) l2 ->
  Permutation l1 l2 ->
  (forall a b, In a l1 -> In b l1 -> fst a = fst b -> a = b) ->
  l1 = l2.
Proof.
  intros H1; revert l2.
  induction H1 as [| x l1 Hs1 IH Hx]; intros l2 H2 Hp Heq.
  - apply Permutation_nil in Hp. now subst.
  - destruct H2 as [| y l2 Hs2 Hy].
    + apply Permutation_sym, Permutation_nil in Hp. discriminate.
    + assert (x = y) as <-.
      { assert (Hyin : In y (x :: l1))
          by (apply (Permutation_in _ (Permutation_sym Hp)); now left).
        assert (Hxin : In x (y :: l2))
          by (apply (Permutation_in _ Hp); now left).
        destruct Hyin as [-> | Hyin]; [reflexivity |].
        destruct Hxin as [-> | Hxin]; [reflexivity |].
        rewrite Forall_forall in Hx, Hy.
        symmetry. apply Heq; [now right | now left |].
        apply le_antisym; [apply (Hx _ Hyin) | apply (Hy _ Hxin)]. }
      f_equal. apply IH; [assumption | now apply Permutation_cons_inv with x |].
      intros a b Ha Hb. apply Heq; now right.
Qed.

Lemma sort_keyed_Permutation_eq (l1 l2 : list (K * A)) :
  Permutation l1 l2 ->
  (forall a b, In a l1 -> In b l1 -> fst a = fst b -> a = b) ->
  sort_keyed lt l1 = sort_keyed lt l2.
Proof.
  intros Hp Heq.
  apply sorted_unique; try apply sort_keyed_sorted.
  - rewrite !sort_keyed_Permutation. exact Hp.
  - intros a b Ha Hb.
    apply Heq; now apply (Permutation_in _ (sort_keyed_Permutation l1)).
Qed.

Lemma sort_keyed_of_sorted (l t : list (K * A)) :
  Permutation l t -> StronglySorted (key_le lt) t ->
  (forall a b, In a t -> In b t -> fst a = fst b -> a = b) ->
  sort_keyed lt l = t.
Proof.
  intros Hp Hs Heq.
  apply sorted_unique; [apply sort_keyed_sorted | exact Hs | |].
  - now rewrite sort_keyed_Permutation.
  - intros a b Ha Hb. apply Heq.
    + apply (Permutation_in _ Hp), (Permutation_in _ (sort_keyed_Permutation l)), Ha.
    + apply (Permutation_in _ Hp), (Permutation_in _ (sort_keyed_Permutation l)), Hb.
Qed.
End SortFacts.

(** The two orders of [discover_cuts] are strict total orders. *)
Lemma ordinal_lt_asym a b : ordinal_lt a b = true -> ordinal_lt b a = false.
Proof. destruct a, b; simpl; try reflexivity; try discriminate. lia. Qed.

Lemma ordinal_le_trans a b c :
  ordinal_lt b a = false -> ordinal_lt c b = false -> ordinal_lt c a = false.
Proof. destruct a, b, c; simpl; try reflexivity; try discriminate. lia. Qed.

Lemma ordinal_le_antisym a b :
  ordinal_lt a b = false -> ordinal_lt b a = false -> a = b.
Proof.
  destruct a, b; simpl; try reflexivity; try discriminate.
  intros H1 H2. f_equal. lia.
Qed.

Lemma ltb_Lt a b : String.ltb a b = true <-> String_as_OT.lt a b.
Proof.
  unfold String.ltb. rewrite <- String_as_OT.cmp_lt. unfold String_as_OT.cmp.
  destruct (String.compare a b); split; congruence.
Qed.

Lemma string_lt_asym a b : String.ltb a b = true -> String.ltb b a = false.
Proof.
  unfold String.ltb. rewrite (String.compare_antisym a b).
  destruct (String.compare b a); simpl; congruence.
Qed.

Lemma string_le_antisym a b :
  String.ltb a b = false -> String.ltb b a = false -> a = b.
Proof.
  unfold String.ltb. intros H1 H2.
  apply String.compare_eq_iff.
  rewrite (String.compare_antisym b a) in H2.
  destruct (String.compare a b); simpl in *; congruence.
Qed.

Lemma string_le_trans a b c :
  String.ltb b a = false -> String.ltb c b = false -> String.ltb c a = false.
Proof.
  intros H1 H2.
  destruct (String.ltb c a) eqn:E; [| reflexivity].
  exfalso.
  destruct (String.ltb a b) eqn:Eab.
  - apply ltb_Lt in E, Eab.
    assert (Hcb : String.ltb c b = true)
      by (apply ltb_Lt; now apply String_as_OT.lt_trans with a).
    congruence.
  - assert (a = b) as -> by now apply string_le_antisym.
    congruence.
Qed.

(* ================================================================= *)
(** ** [int] reads what [str] writes *)

Lemma digits_of_uint (d : uint) :
  forallb_string is_digit (NilEmpty.string_of_uint d) = true.
Proof. induction d; simpl; auto. Qed.

Lemma int_body_digit (b : bool) (c : ascii) (s : string) (acc : Z) :
  is_digit c = true ->
  int_body b (String c s) acc = int_body true s (10 * acc + digit_value c)%Z.
Proof. intros H. cbn [int_body]. now rewrite H. Qed.

Ltac eval_digit :=
  match goal with
  | |- context [digit_value ?c] =>
      let v := eval vm_compute in (digit_value c) in
      change (digit_value c) with v
  end.

Lemma int_body_of_uint (d : uint) :
  forall (b : bool) (acc : nat),
    d <> Nil ->
    int_body b (NilEmpty.string_of_uint d) (Z.of_nat acc)
    = Some (Z.of_nat (Nat.of_uint_acc d acc)).
Proof.
  assert (Hany : forall d acc,
             int_body true (NilEmpty.string_of_uint d) (Z.of_nat acc)
             = Some (Z.of_nat (Nat.of_uint_acc d acc))).
  { clear d. induction d; intros acc;
      cbn [NilEmpty.string_of_uint Nat.of_uint_acc]; [reflexivity | ..];
      rewrite int_body_digit by reflexivity;
      rewrite Nat.tail_mul_spec; eval_digit;
      match goal with
      | |- int_body true _ ?z = Some (Z.of_nat (Nat.of_uint_acc _ ?n)) =>
          replace z with (Z.of_nat n) by lia
      end; apply IHd. }
  intros b acc Hd.
  destruct d; [contradiction | ..];
    cbn [NilEmpty.string_of_uint Nat.of_uint_acc];
    rewrite int_body_digit by reflexivity;
    rewrite Nat.tail_mul_spec; eval_digit;
    match goal with
    | |- int_body true _ ?z = Some (Z.of_nat (Nat.of_uint_acc _ ?n)) =>
        replace z with (Z.of_nat n) by lia
    end; apply Hany.
Qed.

Lemma to_uint_not_Nil (n : nat) : Nat.to_uint n <> Nil.
Proof.
  intros E.
  assert (Hn : n = 0%nat)
    by (rewrite <- (DecimalNat.Unsigned.of_to n), E; reflexivity).
  subst n. vm_compute in E. discriminate E.
Qed.

Lemma int_body_str_nat (n : nat) : int_body false (str_nat n) 0 = Some (Z.of_nat n).
Proof.
  unfold str_nat.
  change 0%Z with (Z.of_nat 0).
  rewrite int_body_of_uint by apply to_uint_not_Nil.
  f_equal. f_equal. apply DecimalNat.Unsigned.of_to.
Qed.

Lemma no_space_strip (s : string) :
  forallb_string (fun c => negb (is_blank c)) s = true ->
  lstrip (rstrip s) = s.
Proof.
  intros H.
  assert (Hr : rstrip s = s).
  { induction s as [| c s IH]; simpl in *; [reflexivity |].
    apply andb_prop in H as [Hc Hs]. rewrite (IH Hs).
    destruct s; [| reflexivity].
    now destruct (is_blank c). }
  rewrite Hr. destruct s as [| c s]; simpl in *; [reflexivity |].
  apply andb_prop in H as [Hc _]. now destruct (is_blank c).
Qed.

Lemma forallb_string_impl (p q : ascii -> bool) (s : string) :
  (forall c, p c = true -> q c = true) ->
  forallb_string p s = true -> forallb_string q s = true.
Proof.
  intros Hpq. induction s as [| c s IH]; simpl; [reflexivity |].
  intros H. apply andb_prop in H as [Hc Hs].
  now rewrite (Hpq _ Hc), IH.
Qed.

Lemma digit_cases (c : ascii) :
  is_digit c = true ->
  c = "0"%char \/ c = "1"%char \/ c = "2"%char \/ c = "3"%char \/ c = "4"%char
  \/ c = "5"%char \/ c = "6"%char \/ c = "7"%char \/ c = "8"%char \/ c = "9"%char.
Proof.
  intros H.
  destruct c as [[] [] [] [] [] [] [] []]; try discriminate H; tauto.
Qed.

Lemma digit_not_space (c : ascii) : is_digit c = true -> negb (is_blank c) = true.
Proof.
  intros H. apply digit_cases in H.
  repeat (destruct H as [-> | H]; [reflexivity |]). now subst.
Qed.

Lemma str_of_nat (n : nat) : str (Z.of_nat n) = str_nat n.
Proof.
  unfold str. destruct (Z.of_nat n <? 0)%Z eqn:E; [apply Z.ltb_lt in E; lia |].
  now rewrite Nat2Z.id.
Qed.

Lemma str_nat_head_digit (n : nat) :
  exists c s, str_nat n = String c s /\ is_digit c = true.
Proof.
  pose proof (digits_of_uint (Nat.to_uint n)) as H.
  pose proof (to_uint_not_Nil n) as Hn.
  unfold str_nat.
  destruct (Nat.to_uint n); [contradiction | ..]; simpl in *; eauto.
Qed.

Lemma int_unsigned (c : ascii) (s : string) :
  is_digit c = true ->
  lstrip (rstrip (String c s)) = String c s ->
  int (String c s)
  = match int_body false (String c s) 0 with
    | Some n => Ok (1 * n)%Z
    | None => Raise ValueError
    end.
Proof.
  intros Hc Hs. unfold int. rewrite Hs.
  apply digit_cases in Hc.
  repeat (destruct Hc as [-> | Hc]; [reflexivity |]). now subst c.
Qed.

(** [int(str(n)) = n] for every natural number [n]. *)
Lemma int_str (n : nat) : int (str (Z.of_nat n)) = Ok (Z.of_nat n).
Proof.
  rewrite str_of_nat.
  destruct (str_nat_head_digit n) as (c & s & E & Hc).
  pose proof (int_body_str_nat n) as Hb.
  pose proof (digits_of_uint (Nat.to_uint n)) as Hd. fold (str_nat n) in Hd.
  rewrite E in *.
  rewrite int_unsigned, Hb.
  - f_equal. lia.
  - exact Hc.
  - apply no_space_strip.
    apply forallb_string_impl with is_digit; [apply digit_not_space | exact Hd].
Qed.

(* ================================================================= *)
(** ** Version tokens of features *)

Lemma version_value_feature (i : nat) :
  version_value (feature_version i) = Some (u64_MAX - Z.of_nat i)%Z.
Proof.
  unfold feature_version.
  destruct (0 <? i)%nat eqn:E.
  - unfold version_value. simpl strip_prefix.
    rewrite str_of_nat.
    destruct (str_nat_head_digit i) as (c & s & Es & Hc). rewrite Es.
    rewrite <- Es, <- str_of_nat, int_str. reflexivity.
  - apply Nat.ltb_ge in E. assert (i = 0)%nat as -> by lia. reflexivity.
Qed.

Lemma Some_inj {A : Type} (a b : A) : Some a = Some b -> a = b.
Proof. intros H. now injection H. Qed.

Lemma feature_version_inj (i j : nat) :
  feature_version i = feature_version j -> i = j.
Proof.
  intros H. apply (f_equal version_value) in H.
  rewrite !version_value_feature in H.
  apply Some_inj, Z.sub_cancel_l in H. now apply Nat2Z.inj.
Qed.

(* ================================================================= *)
(** ** The shape of the registry *)

Lemma discover_cuts_unfold (listing : list entry) :
  discover_cuts listing
  = (snapshots <- sort_snapshots (fst (classify listing)) ;;
     cuts <- assign_snapshots snapshots [] ;;
     Ok (cuts ++ assign_features 0 (sort_features (snd (classify listing))))%list).
Proof. unfold discover_cuts. now destruct (classify listing). Qed.

Lemma assign_snapshots_no_feature (snapshots : list string) :
  forall cuts r,
    assign_snapshots snapshots cuts = Ok r ->
    Forall (fun c => is_snapshot_cut c = true) cuts ->
    Forall (fun c => is_snapshot_cut c = true) r.
Proof.
  induction snapshots as [| m rest IH]; intros cuts r H Hc; simpl in H.
  - now injection H as <-.
  - destruct (negb (m =? "latest")).
    + apply (IH _ _ H). apply Forall_app; split; [assumption | now repeat constructor].
    + apply bind_Ok_inv in H as (v & _ & H).
      apply (IH _ _ H). apply Forall_app; split; [assumption | now repeat constructor].
Qed.

Lemma assign_features_all_feature (features : list string) :
  forall i, Forall (fun c => is_snapshot_cut c = false) (assign_features i features).
Proof. induction features; intros i; simpl; constructor; auto. Qed.

Lemma filter_all {A : Type} (p : A -> bool) (l : list A) :
  Forall (fun x => p x = true) l -> filter p l = l.
Proof. induction 1 as [| x l Hx _ IH]; simpl; [| rewrite Hx, IH]; reflexivity. Qed.

Lemma filter_none {A : Type} (p : A -> bool) (l : list A) :
  Forall (fun x => p x = false) l -> filter p l = [].
Proof. induction 1 as [| x l Hx _ IH]; simpl; [| rewrite Hx, IH]; reflexivity. Qed.

(** The registry is the snapshot cuts followed by the feature cuts, the
    latter numbered along the names sorted. *)
Lemma discover_cuts_shape (listing : list entry) (cuts : list cut) :
  discover_cuts listing = Ok cuts ->
  (snapshot_cuts cuts ++ feature_cuts cuts)%list = cuts
  /\ feature_cuts cuts
     = assign_features 0 (sort_features (snd (classify listing)))
  /\ exists snapshots,
       sort_snapshots (fst (classify listing)) = Ok snapshots
       /\ assign_snapshots snapshots [] = Ok (snapshot_cuts cuts).
Proof.
  rewrite discover_cuts_unfold. intros H.
  apply bind_Ok_inv in H as (snapshots & Hs & H).
  apply bind_Ok_inv in H as (scuts & Ha & H).
  injection H as <-.
  pose proof (assign_snapshots_no_feature _ _ _ Ha (Forall_nil _)) as Hsn.
  pose proof (assign_features_all_feature (sort_features (snd (classify listing))) 0) as Hft.
  assert (E1 : snapshot_cuts (scuts ++ assign_features 0 (sort_features (snd (classify listing))))%list = scuts).
  { unfold snapshot_cuts. rewrite filter_app, (filter_all _ _ Hsn), (filter_none _ _ Hft).
    apply app_nil_r. }
  assert (E2 : feature_cuts (scuts ++ assign_features 0 (sort_features (snd (classify listing))))%list
               = assign_features 0 (sort_features (snd (classify listing)))).
  { unfold feature_cuts. rewrite filter_app.
    rewrite filter_none, filter_all; [reflexivity | |].
    - eapply Forall_impl; [| exact Hft]. intros c Hc; simpl in Hc. now rewrite Hc.
    - eapply Forall_impl; [| exact Hsn]. intros c Hc; simpl in Hc. now rewrite Hc. }
  rewrite E1, E2. repeat split. exists snapshots. now split.
Qed.

Lemma assign_features_nth (features : list string) :
  forall start i name,
    nth_error features i = Some name ->
    nth_error (assign_features start features) i
    = Some (feature_version (start + i), Some (upper name), name).
Proof.
  induction features as [| f rest IH]; intros start [| i] name H; simpl in *;
    try discriminate.
  - injection H as ->. now rewrite Nat.add_0_r.
  - rewrite (IH _ _ _ H). now rewrite Nat.add_succ_r.
Qed.

Lemma assign_features_nth_inv (features : list string) :
  forall start i c,
    nth_error (assign_features start features) i = Some c ->
    exists name, nth_error features i = Some name
                 /\ c = (feature_version (start + i), Some (upper name), name).
Proof.
  induction features as [| f rest IH]; intros start [| i] c H; simpl in *;
    try discriminate.
  - injection H as <-. exists f. now rewrite Nat.add_0_r.
  - destruct (IH _ _ _ H) as (name & Hn & ->). exists name.
    now rewrite Nat.add_succ_r.
Qed.

Lemma assign_features_modules (features : list string) :
  forall i, map cut_module (assign_features i features) = features.
Proof. induction features; intros i; simpl; [| rewrite IHfeatures]; reflexivity. Qed.

(** The features are sorted by name. *)
Lemma sort_features_sorted (features : list string) :
  StronglySorted (fun a b => String.ltb b a = false) (sort_features features).
Proof.
  unfold sort_features.
  pose proof (sort_keyed_sorted String.ltb string_lt_asym string_le_trans
                (map (fun s => (feature_key s, s)) features)) as Hs.
  assert (Hk : Forall (fun p : string * string => fst p = snd p)
                 (sort_keyed String.ltb (map (fun s => (feature_key s, s)) features))).
  { rewrite Forall_forall. intros p Hp.
    apply (Permutation_in _ (sort_keyed_Permutation String.ltb _)) in Hp.
    apply in_map_iff in Hp as (s & <- & _). reflexivity. }
  induction Hs as [| p l Hs IH Hp]; simpl; [constructor |].
  inversion Hk as [| ? ? Hp1 Hk1]; subst.
  constructor; [now apply IH |].
  rewrite Forall_forall in *. intros b Hb.
  apply in_map_iff in Hb as (q & <- & Hq).
  specialize (Hp _ Hq). unfold key_le in Hp.
  now rewrite <- Hp1, <- (Hk1 _ Hq).
Qed.

Lemma sort_features_Permutation (features : list string) :
  Permutation (sort_features features) features.
Proof.
  unfold sort_features.
  rewrite (sort_keyed_Permutation String.ltb), map_map. simpl. now rewrite map_id.
Qed.

Lemma leb_ltb (a b : string) : String.leb a b = true <-> String.ltb b a = false.
Proof.
  unfold String.leb, String.ltb. rewrite (String.compare_antisym a b).
  destruct (String.compare b a); simpl; split; congruence.
Qed.

Lemma StronglySorted_impl {A : Type} (R R' : A -> A -> Prop) (l : list A) :
  (forall a b, R a b -> R' a b) -> StronglySorted R l -> StronglySorted R' l.
Proof.
  intros HR. induction 1 as [| a l _ IH Ha]; constructor; [exact IH |].
  eapply Forall_impl; [| exact Ha]. intros b. apply HR.
Qed.

Lemma assign_features_versions (features : list string) :
  forall i,
    map cut_version (assign_features i features)
    = map feature_version (seq i (List.length features)).
Proof. induction features; intros i; simpl; [| rewrite IHfeatures]; reflexivity. Qed.

Lemma assign_features_length (features : list string) :
  forall i, List.length (assign_features i features) = List.length features.
Proof. induction features; intros i; simpl; [| rewrite IHfeatures]; reflexivity. Qed.

(* ================================================================= *)
(** ** Feature cuts *)

(** C1 (amended).  For every listing whose registry is built, the feature
    cuts are the feature modules of the listing in ascending order of
    their names, and no creation time is consulted: the cut at position
    [i] has the version [u64::MAX] less [i] and the constant that is its
    name in upper case.  In particular, from the feature modules [b] and
    [a] and no snapshot, [a] receives [u64::MAX] and [b] receives
    [u64::MAX - 1], with the constants [A] and [B]. *)
Theorem features_ordered_by_name (listing : list entry) (cuts : list cut) :
  discover_cuts listing = Ok cuts ->
  (exists names,
      Permutation names (snd (classify listing))
      /\ StronglySorted (fun a b => String.leb a b = true) names
      /\ List.length (feature_cuts cuts) = List.length names
      /\ forall i name,
          nth_error names i = Some name ->
          nth_error (feature_cuts cuts) i
          = Some (feature_version i, Some (upper name), name))
  /\ discover_cuts [file "b"; file "a"]
     = Ok [("u64::MAX", Some "A", "a"); ("u64::MAX - 1", Some "B", "b")].
Proof.
  intros H. split; [| vm_compute; reflexivity].
  apply discover_cuts_shape in H as (_ & Hf & _).
  exists (sort_features (snd (classify listing))).
  split; [apply sort_features_Permutation |].
  split.
  { eapply StronglySorted_impl; [| apply sort_features_sorted].
    intros a b Hab. now apply leb_ltb. }
  rewrite Hf. split; [apply assign_features_length |].
  intros i name Hn. now apply (assign_features_nth _ 0).
Qed.

Lemma features_ordered_by_name_witness :
  discover_cuts [file "b"; file "latest"; file "a"; file "v0"]
  = Ok [("0", None, "v0"); ("1", None, "latest");
        ("u64::MAX", Some "A", "a"); ("u64::MAX - 1", Some "B", "b")]
  /\ exists names,
      Permutation names ["b"; "a"]
      /\ StronglySorted (fun a b => String.leb a b = true) names.
Proof.
  split; [vm_compute; reflexivity |].
  destruct (features_ordered_by_name
              [file "b"; file "latest"; file "a"; file "v0"]
              [("0", None, "v0"); ("1", None, "latest");
               ("u64::MAX", Some "A", "a"); ("u64::MAX - 1", Some "B", "b")])
    as [(names & Hp & Hs & _) _]; [vm_compute; reflexivity |].
  exists names. split; assumption.
Defined.

(** C7.  For every listing whose registry is built, the feature cut at
    position [i] of the assignment has the version token [u64::MAX] for
    [i = 0] and [u64::MAX - i] after that, whose value is the largest
    64-bit unsigned value less [i]; hence the values decrease strictly
    along the assignment and the versions are pairwise distinct. *)
Theorem feature_versions_descend (listing : list entry) (cuts : list cut) :
  discover_cuts listing = Ok cuts ->
  (forall i c,
      nth_error (feature_cuts cuts) i = Some c ->
      cut_version c = feature_version i
      /\ version_value (cut_version c) = Some (u64_MAX - Z.of_nat i)%Z)
  /\ (forall i j ci cj,
         (i < j)%nat ->
         nth_error (feature_cuts cuts) i = Some ci ->
         nth_error (feature_cuts cuts) j = Some cj ->
         exists vi vj,
           version_value (cut_version ci) = Some vi
           /\ version_value (cut_version cj) = Some vj
           /\ (vj < vi)%Z)
  /\ NoDup (map cut_version (feature_cuts cuts))
  /\ feature_version 0 = "u64::MAX"
  /\ version_value "u64::MAX" = Some (2 ^ 64 - 1)%Z.
Proof.
  intros H. apply discover_cuts_shape in H as (_ & Hf & _). rewrite Hf.
  assert (Hnth : forall i c,
             nth_error (assign_features 0 (sort_features (snd (classify listing)))) i = Some c ->
             cut_version c = feature_version i
             /\ version_value (cut_version c) = Some (u64_MAX - Z.of_nat i)%Z).
  { intros i c Hc.
    apply assign_features_nth_inv in Hc as (name & _ & ->).
    unfold cut_version; cbn [fst snd plus].
    split; [reflexivity | apply version_value_feature]. }
  split; [exact Hnth |].
  split.
  { intros i j ci cj Hij Hi Hj.
    destruct (Hnth _ _ Hi) as [_ Vi], (Hnth _ _ Hj) as [_ Vj].
    eexists; eexists. split; [exact Vi |]. split; [exact Vj |]. lia. }
  split.
  { rewrite assign_features_versions.
    apply Finite.Injective_map_NoDup; [| apply seq_NoDup].
    intros i j. apply feature_version_inj. }
  split; reflexivity.
Qed.

Lemma feature_versions_descend_witness :
  NoDup (map cut_version
           (feature_cuts [("0", None, "v0"); ("1", None, "latest");
                          ("u64::MAX", Some "A", "a"); ("u64::MAX - 1", Some "B", "b");
                          ("u64::MAX - 2", Some "C", "c")])).
Proof.
  apply (feature_versions_descend
           [file "c"; file "b"; file "latest"; file "a"; file "v0"]).
  vm_compute; reflexivity.
Defined.

(* ================================================================= *)
(** ** Snapshot cuts *)

Lemma int_raises_ValueError (s : string) (e : exn) :
  int s = Raise e -> e = ValueError.
Proof.
  unfold int.
  destruct (match lstrip (rstrip s) with
            | String "-" b => ((-1)%Z, b)
            | String "+" b => (1%Z, b)
            | _ => (1%Z, lstrip (rstrip s))
            end) as [sign body].
  destruct (int_body false body 0); [discriminate | congruence].
Qed.

Lemma keyed_raises_ValueError (s : string) (e : exn) :
  keyed s = Raise e -> e = ValueError.
Proof.
  unfold keyed, snapshot_key.
  destruct (s =? "latest"); simpl; [discriminate |].
  destruct (int (tail s)) eqn:E; simpl; [discriminate |].
  intros [= <-]. now apply int_raises_ValueError with (tail s).
Qed.

Lemma keyed_Ok (s : string) (p : ordinal * string) :
  keyed s = Ok p -> snapshot_key s = Ok (fst p) /\ snd p = s.
Proof.
  unfold keyed. destruct (snapshot_key s); simpl; [| discriminate].
  intros [= <-]. now split.
Qed.

Lemma Forall2_In_r {A B : Type} (R : A -> B -> Prop) (l : list A) (r : list B) (y : B) :
  Forall2 R l r -> In y r -> exists x, In x l /\ R x y.
Proof.
  induction 1 as [| x y' l r Hxy _ IH]; intros Hy; [contradiction |].
  destruct Hy as [<- | Hy].
  - exists x. split; [now left | assumption].
  - destruct (IH Hy) as (x' & Hx' & HR). exists x'. split; [now right | assumption].
Qed.

Lemma snapshot_key_vname (i : nat) : snapshot_key (vname i) = Ok (Num (Z.of_nat i)).
Proof.
  unfold snapshot_key, vname.
  change ("v" ++ str (Z.of_nat i)) with (String "v" (str (Z.of_nat i))).
  change (String "v" (str (Z.of_nat i)) =? "latest") with false.
  cbn [tail]. now rewrite int_str.
Qed.

Lemma vname_not_latest (i : nat) : (vname i =? "latest") = false.
Proof. reflexivity. Qed.

(** The numbered snapshots are entered with the ordinals of their names. *)
Lemma assign_numbered (n : nat) :
  forall (a : nat) (rest : list string) (cuts : list cut),
    assign_snapshots (map vname (seq a n) ++ rest) cuts
    = assign_snapshots rest
        (cuts ++ map (fun i => (str (Z.of_nat i), None, vname i)) (seq a n)).
Proof.
  induction n as [| n IH]; intros a rest cuts; cbn [seq map].
  - now rewrite app_nil_r.
  - rewrite <- app_comm_cons. cbn [assign_snapshots].
    rewrite vname_not_latest. cbn [negb].
    rewrite IH, <- app_assoc. reflexivity.
Qed.

Lemma fold_max_seq (n : nat) :
  forall a m : nat,
    (m <= a)%nat ->
    fold_left Z.max (map Z.of_nat (seq a n)) (Z.of_nat m)
    = Z.of_nat (match n with O => m | S n' => a + n' end).
Proof.
  induction n as [| n IH]; intros a m Hm; simpl; [reflexivity |].
  replace (Z.max (Z.of_nat m) (Z.of_nat a)) with (Z.of_nat a) by lia.
  rewrite IH by lia. destruct n; f_equal; lia.
Qed.

Lemma max_version_numbered (k : nat) :
  (1 <= k)%nat ->
  max_version (map (fun i => (str (Z.of_nat i), None, vname i)) (seq 0 k))
  = Ok (Z.of_nat (k - 1)).
Proof.
  intros Hk. unfold max_version.
  rewrite (mapM_Ok_map _ (fun c => match int (cut_version c) with
                                   | Ok z => z | Raise _ => 0%Z end)).
  - cbn [bind]. rewrite map_map.
    rewrite (map_ext _ Z.of_nat)
      by (intros i; unfold cut_version; cbn [fst]; now rewrite int_str).
    destruct k as [| k]; [lia |].
    cbn [seq map].
    rewrite fold_max_seq by lia. f_equal.
    destruct k; f_equal; lia.
  - intros c Hc. apply in_map_iff in Hc as (i & <- & _).
    unfold cut_version; cbn [fst]. now rewrite int_str.
Qed.

Lemma sorted_map_seq {A : Type} (R : A -> A -> Prop) (f : nat -> A) (z : A) (n : nat) :
  forall a,
    (forall i j, (i < j)%nat -> R (f i) (f j)) ->
    (forall i, R (f i) z) ->
    StronglySorted R (map f (seq a n) ++ [z]).
Proof.
  induction n as [| n IH]; intros a Hf Hz; simpl.
  - repeat constructor.
  - constructor; [now apply IH |].
    apply Forall_app. split; [| now repeat constructor].
    rewrite Forall_forall. intros y Hy.
    apply in_map_iff in Hy as (j & <- & Hj). apply in_seq in Hj.
    apply Hf. lia.
Qed.

Lemma str_nat_inj (i j : nat) : str (Z.of_nat i) = str (Z.of_nat j) -> i = j.
Proof.
  intros H. apply (f_equal int) in H. rewrite !int_str in H.
  injection H. lia.
Qed.

(** The sorted snapshots, when the listing has [v0] to [v(k-1)] and
    [latest]. *)
Lemma sort_snapshots_numbered (snapshots : list string) (k : nat) :
  Permutation snapshots (map vname (seq 0 k) ++ ["latest"]) ->
  sort_snapshots snapshots = Ok (map vname (seq 0 k) ++ ["latest"])%list.
Proof.
  intros Hp. unfold sort_snapshots.
  set (t := (map (fun i => (Num (Z.of_nat i), vname i)) (seq 0 k)
             ++ [(Inf, "latest")])%list).
  assert (Ht : mapM keyed (map vname (seq 0 k) ++ ["latest"]) = Ok t).
  { rewrite (mapM_Ok_map _ (fun s => (match snapshot_key s with
                                      | Ok o => o | Raise _ => Inf end, s))).
    - f_equal. unfold t. rewrite map_app, map_map. f_equal.
      apply map_ext. intros i. now rewrite snapshot_key_vname.
    - intros s Hs. unfold keyed. apply in_app_or in Hs as [Hs | [<- | []]].
      + apply in_map_iff in Hs as (i & <- & _). now rewrite snapshot_key_vname.
      + reflexivity. }
  destruct (mapM_Permutation keyed ValueError _ _ keyed_raises_ValueError Hp)
    as [[_ Hr] | (r1 & r2 & -> & Hr & Hp12)]; rewrite Ht in Hr; [discriminate |].
  injection Hr as <-. cbn [bind]. f_equal.
  rewrite (sort_keyed_of_sorted ordinal_lt ordinal_lt_asym ordinal_le_trans
             ordinal_le_antisym r1 t).
  - unfold t. rewrite map_app, map_map. reflexivity.
  - exact Hp12.
  - unfold t. apply sorted_map_seq.
    + intros i j Hij. unfold key_le. simpl. apply Z.ltb_ge. lia.
    + intros i. reflexivity.
  - intros a b Ha Hb Hab. unfold t in Ha, Hb.
    apply in_app_or in Ha as [Ha | [<- | []]];
      apply in_app_or in Hb as [Hb | [<- | []]];
      try apply in_map_iff in Ha as (i & <- & _);
      try apply in_map_iff in Hb as (j & <- & _);
      simpl in Hab; try discriminate; [| reflexivity].
    injection Hab as Hab. apply Nat2Z.inj in Hab. now subst.
Qed.

(** C4 (amended).  For every listing whose snapshot modules are [latest]
    and the numbered snapshots [v0] to [v(k-1)], each once, with [k] at
    least one, the registry is built, its snapshot cuts are [v0] to
    [v(k-1)] with the versions [0] to [k-1] followed by [latest] with the
    version [k]: the versions are the contiguous range [0..=k], with
    [k + 1] the number of snapshot cuts. *)
Theorem numbered_snapshots_contiguous (listing : list entry) (k : nat) :
  (1 <= k)%nat ->
  Permutation (fst (classify listing)) (map vname (seq 0 k) ++ ["latest"]) ->
  exists cuts,
    discover_cuts listing = Ok cuts
    /\ snapshot_cuts cuts
       = (map (fun i => (str (Z.of_nat i), None, vname i)) (seq 0 k)
            ++ [(str (Z.of_nat k), None, "latest")])%list
    /\ List.length (snapshot_cuts cuts) = S k
    /\ contiguous_versions (snapshot_cuts cuts).
Proof.
  intros Hk Hp.
  set (snaps := (map (fun i => (str (Z.of_nat i), None, vname i)) (seq 0 k)
                   ++ [(str (Z.of_nat k), None, "latest")])%list : list cut).
  assert (Ha : assign_snapshots (map vname (seq 0 k) ++ ["latest"]) [] = Ok snaps).
  { rewrite assign_numbered, app_nil_l. cbn [assign_snapshots].
    change ("latest" =? "latest") with true. cbn [negb].
    rewrite max_version_numbered by exact Hk. cbn [bind assign_snapshots].
    replace (1 + Z.of_nat (k - 1))%Z with (Z.of_nat k) by lia. reflexivity. }
  assert (Hd : discover_cuts listing
               = Ok (snaps ++ assign_features 0 (sort_features (snd (classify listing))))%list).
  { rewrite discover_cuts_unfold, (sort_snapshots_numbered _ _ Hp). cbn [bind].
    rewrite Ha. reflexivity. }
  eexists. split; [exact Hd |].
  destruct (discover_cuts_shape _ _ Hd) as (_ & _ & s & Hs & Hs').
  rewrite (sort_snapshots_numbered _ _ Hp) in Hs. injection Hs as <-.
  rewrite Ha in Hs'. injection Hs' as Hs'. rewrite <- Hs'.
  split; [reflexivity |].
  assert (Hlen : List.length snaps = S k).
  { unfold snaps. rewrite length_app, length_map, length_seq. simpl. lia. }
  split; [exact Hlen |].
  unfold contiguous_versions. rewrite Hlen.
  replace (S k - 1)%nat with k by lia.
  split.
  - unfold snaps. rewrite map_app, map_map, seq_S, map_app. reflexivity.
  - intros c Hc Hm. unfold snaps in Hc.
    apply in_app_or in Hc as [Hc | [<- | []]]; [| reflexivity].
    apply in_map_iff in Hc as (i & <- & _). discriminate Hm.
Qed.

Lemma numbered_snapshots_contiguous_witness :
  exists cuts,
    discover_cuts [file "latest"; file "v1"; file "lib"; file "v0"; file "a"] = Ok cuts
    /\ snapshot_cuts cuts
       = [("0", None, "v0"); ("1", None, "v1"); ("2", None, "latest")].
Proof.
  destruct (numbered_snapshots_contiguous
              [file "latest"; file "v1"; file "lib"; file "v0"; file "a"] 2)
    as (cuts & Hd & Hs & _).
  - lia.
  - vm_compute.
    apply perm_trans with ["v1"; "latest"; "v0"]; [apply perm_swap |].
    apply perm_trans with ["v1"; "v0"; "latest"]; [apply perm_skip, perm_swap |].
    apply perm_swap.
  - exists cuts. split; [exact Hd | exact Hs].
Defined.

(* ================================================================= *)
(** ** Independence of the order of the listing *)

Lemma classify_Permutation (l1 l2 : list entry) :
  Permutation l1 l2 ->
  Permutation (fst (classify l1)) (fst (classify l2))
  /\ Permutation (snd (classify l1)) (snd (classify l2)).
Proof.
  induction 1 as [| f l1 l2 _ [IHs IHf] | f g l | l1 l2 l3 _ [IH1s IH1f] _ [IH2s IH2f]].
  - split; constructor.
  - cbn [classify].
    destruct (classify l1) as [s1 f1], (classify l2) as [s2 f2]; cbn [fst snd] in *.
    destruct (negb (is_file f) || mem (stem f) NOT_A_CUT); cbn [fst snd];
      [now split |].
    destruct (match_snapshot (stem f)); cbn [fst snd]; split; auto.
  - cbn [classify]. destruct (classify l) as [s0 f0].
    destruct (negb (is_file f) || mem (stem f) NOT_A_CUT),
             (negb (is_file g) || mem (stem g) NOT_A_CUT),
             (match_snapshot (stem f)), (match_snapshot (stem g));
      cbn [fst snd]; split; try reflexivity; apply perm_swap.
  - split; eapply perm_trans; eassumption.
Qed.

Lemma sort_snapshots_Permutation (s1 s2 : list string) :
  Permutation s1 s2 ->
  (forall s t k, In s s1 -> In t s1 ->
                 snapshot_key s = Ok k -> snapshot_key t = Ok k -> s = t) ->
  sort_snapshots s1 = sort_snapshots s2.
Proof.
  intros Hp Hd. unfold sort_snapshots.
  destruct (mapM_Permutation keyed ValueError _ _ keyed_raises_ValueError Hp)
    as [[-> ->] | (r1 & r2 & E1 & -> & Hp12)]; [reflexivity |].
  rewrite E1. cbn [bind]. f_equal. f_equal.
  apply (sort_keyed_Permutation_eq ordinal_lt ordinal_lt_asym ordinal_le_trans
           ordinal_le_antisym); [exact Hp12 |].
  intros a b Ha Hb Hab.
  apply mapM_Ok_Forall2 in E1.
  destruct (Forall2_In_r _ _ _ _ E1 Ha) as (s & Hs & Ks).
  destruct (Forall2_In_r _ _ _ _ E1 Hb) as (t & Ht & Kt).
  apply keyed_Ok in Ks as [Ks Es], Kt as [Kt Et].
  destruct a as [ka sa], b as [kb sb]; simpl in *. subst sa sb kb.
  f_equal. now apply (Hd s t ka).
Qed.

Lemma sort_features_Permutation_eq (f1 f2 : list string) :
  Permutation f1 f2 -> sort_features f1 = sort_features f2.
Proof.
  intros Hp. unfold sort_features. f_equal.
  apply (sort_keyed_Permutation_eq String.ltb string_lt_asym string_le_trans
           string_le_antisym); [now apply Permutation_map |].
  intros a b Ha Hb Hab.
  apply in_map_iff in Ha as (s & <- & _), Hb as (t & <- & _).
  unfold feature_key in *. simpl in Hab. now subst.
Qed.

(** C8 (amended).  For every directory in which no two snapshot modules
    have the same ordinal, and every template, the registry and the
    generated text do not depend on the order in which the directory is
    listed: two listings of the same entries give the same registry, or
    the same exception, and the same text. *)
Theorem listing_order_irrelevant (l1 l2 : list entry) (template : string) :
  Permutation l1 l2 ->
  distinct_ordinals l1 ->
  discover_cuts l1 = discover_cuts l2
  /\ generate_lib l1 template = generate_lib l2 template.
Proof.
  intros Hp Hd.
  assert (E : discover_cuts l1 = discover_cuts l2).
  { rewrite !discover_cuts_unfold.
    destruct (classify_Permutation _ _ Hp) as [Hs Hf].
    rewrite (sort_snapshots_Permutation _ _ Hs Hd).
    now rewrite (sort_features_Permutation_eq _ _ Hf). }
  split; [exact E |]. unfold generate_lib. now rewrite E.
Qed.

Lemma listing_order_irrelevant_witness :
  discover_cuts [file "b"; file "latest"; file "v1"; file "a"; file "v0"]
  = discover_cuts [file "latest"; file "b"; file "v1"; file "v0"; file "a"].
Proof.
  apply (listing_order_irrelevant
           [file "b"; file "latest"; file "v1"; file "a"; file "v0"]
           [file "latest"; file "b"; file "v1"; file "v0"; file "a"] "").
  - apply perm_trans with [file "latest"; file "b"; file "v1"; file "a"; file "v0"];
      [apply perm_swap |].
    do 3 apply perm_skip. apply perm_swap.
  - intros s t k Hs Ht Ks Kt. vm_compute in Hs, Ht.
    destruct Hs as [<- | [<- | [<- | []]]];
      destruct Ht as [<- | [<- | [<- | []]]];
      try reflexivity; vm_compute in Ks, Kt; congruence.
Defined.

(* ================================================================= *)
(** ** Strings *)

Lemma append_assoc (a b c : string) : (a ++ b) ++ c = a ++ b ++ c.
Proof. induction a; simpl; [| rewrite IHa]; reflexivity. Qed.

Lemma append_nil_r (a : string) : a ++ "" = a.
Proof. induction a; simpl; [| rewrite IHa]; reflexivity. Qed.

Lemma length_append (a b : string) :
  String.length (a ++ b) = (String.length a + String.length b)%nat.
Proof. induction a; simpl; [| rewrite IHa]; reflexivity. Qed.

Lemma forallb_string_app (p : ascii -> bool) (a b : string) :
  forallb_string p (a ++ b) = forallb_string p a && forallb_string p b.
Proof.
  induction a as [| c a IH]; simpl; [reflexivity |].
  now rewrite IH, andb_assoc.
Qed.

(** Two ways of cutting one text: one cut is in the other's first part. *)
Lemma append_eq_append (a b c d : string) :
  a ++ b = c ++ d ->
  (exists e, a = c ++ e /\ d = e ++ b) \/ (exists e, c = a ++ e /\ b = e ++ d).
Proof.
  revert c. induction a as [| x a IH]; intros c H; simpl in H.
  - right. exists c. now split.
  - destruct c as [| y c]; simpl in H.
    + left. exists (String x a). now split.
    + injection H as -> H. destruct (IH _ H) as [(e & -> & ->) | (e & -> & ->)].
      * left. exists e. now split.
      * right. exists e. now split.
Qed.

Lemma stops_app (p : ascii -> bool) (a b : string) :
  a <> "" -> stops p a -> stops p (a ++ b).
Proof. destruct a; [contradiction | trivial]. Qed.

Lemma span_spec (p : ascii -> bool) (s a b : string) :
  span p s = (a, b) -> s = a ++ b /\ forallb_string p a = true /\ stops p b.
Proof.
  revert a b. induction s as [| c s IH]; intros a b H; simpl in H.
  - injection H as <- <-. now repeat split.
  - destruct (p c) eqn:E.
    + destruct (span p s) as [a' b'] eqn:Es. injection H as <- <-.
      destruct (IH _ _ eq_refl) as (-> & Ha & Hb).
      simpl. rewrite E, Ha. now repeat split.
    + injection H as <- <-. simpl. now repeat split.
Qed.

Lemma span_app (p : ascii -> bool) (a b : string) :
  forallb_string p a = true -> stops p b -> span p (a ++ b) = (a, b).
Proof.
  induction a as [| c a IH]; simpl; intros Ha Hb.
  - destruct b as [| c b]; [reflexivity |]. simpl in *. now rewrite Hb.
  - apply andb_prop in Ha as [Hc Ha]. now rewrite Hc, IH.
Qed.

Lemma strip_prefix_spec (p s r : string) : strip_prefix p s = Some r -> s = p ++ r.
Proof.
  revert s. induction p as [| a p IH]; intros s H; simpl in H.
  - now injection H as ->.
  - destruct s as [| b s]; [discriminate |].
    destruct (Ascii.eqb_spec a b) as [-> |]; [| discriminate].
    simpl. f_equal. now apply IH.
Qed.

Lemma strip_prefix_app (p s : string) : strip_prefix p (p ++ s) = Some s.
Proof.
  induction p as [| a p IH]; simpl; [reflexivity |].
  now rewrite Ascii.eqb_refl.
Qed.

Lemma marker_assoc (spc var rest : string) :
  (spc ++ "// $" ++ var) ++ rest = spc ++ "// $" ++ var ++ rest.
Proof. rewrite append_assoc. reflexivity. Qed.

(* ----------------------------------------------------------------- *)
(** *** Classes of characters *)

Lemma directive_char_not_space (c : ascii) :
  is_directive_char c = true -> is_space c = false.
Proof. destruct c as [[] [] [] [] [] [] [] []]; vm_compute; congruence. Qed.

Lemma directive_char_not_newline (c : ascii) :
  is_directive_char c = true -> (c =? newline)%char = false.
Proof. destruct c as [[] [] [] [] [] [] [] []]; vm_compute; congruence. Qed.

Lemma newline_is_space (c : ascii) :
  (c =? newline)%char = true -> is_space c = true.
Proof. intros H. apply Ascii.eqb_eq in H. now subst. Qed.

Lemma at_line_end_stops (post : string) :
  at_line_end post <-> stops (fun c => negb (c =? newline)%char) post.
Proof.
  split.
  - intros [-> | (p & ->)]; simpl; reflexivity.
  - destruct post as [| c p]; simpl; intros H; [now left |].
    right. exists p. apply negb_false_iff, Ascii.eqb_eq in H. now subst.
Qed.

Lemma at_line_end_directive (post : string) :
  at_line_end post -> stops is_directive_char post.
Proof. intros [-> | (p & ->)]; simpl; reflexivity. Qed.

Lemma at_line_end_app (a b : string) :
  a <> "" -> at_line_end a -> at_line_end (a ++ b).
Proof.
  intros Ha [-> | (p & ->)]; [contradiction |].
  right. exists (p ++ b). reflexivity.
Qed.

(* ================================================================= *)
(** ** The pattern of a directive *)

(** What [match_directive] finds is a directive line, up to a line end. *)
Lemma match_directive_spec (s spc var rest : string) :
  match_directive s = Some (spc, var, rest) ->
  s = spc ++ "// $" ++ var ++ rest
  /\ directive_line spc var /\ at_line_end rest.
Proof.
  unfold match_directive.
  destruct (span is_space s) as [spc' s1] eqn:E1.
  destruct (strip_prefix "// $" s1) as [s2 |] eqn:E2; [| discriminate].
  destruct (span is_directive_char s2) as [var' rest'] eqn:E3.
  apply span_spec in E1 as (-> & Hspc & _).
  apply strip_prefix_spec in E2 as ->.
  apply span_spec in E3 as (-> & Hvar & _).
  destruct var' as [| v var']; [discriminate |].
  destruct rest' as [| c rest'].
  - intros [= <- <- <-]. repeat split; try assumption; [discriminate | now left].
  - destruct (Ascii.eqb_spec c newline) as [-> |]; [| discriminate].
    intros [= <- <- <-]. repeat split; try assumption; [discriminate |].
    right. now exists rest'.
Qed.

(** A directive line up to a line end is found, with its own groups. *)
Lemma match_directive_complete (spc var rest : string) :
  directive_line spc var -> at_line_end rest ->
  match_directive (spc ++ "// $" ++ var ++ rest) = Some (spc, var, rest).
Proof.
  intros (Hspc & Hne & Hvar) Hrest. unfold match_directive.
  rewrite (span_app is_space spc) by (assumption || reflexivity).
  rewrite strip_prefix_app.
  rewrite (span_app is_directive_char var)
    by (assumption || now apply at_line_end_directive).
  destruct var as [| v var]; [contradiction |].
  destruct Hrest as [-> | (p & ->)]; [reflexivity |].
  simpl. reflexivity.
Qed.

Lemma match_directive_shorter (s spc var rest : string) :
  match_directive s = Some (spc, var, rest) ->
  (String.length rest < String.length s)%nat.
Proof.
  intros H. apply match_directive_spec in H as (-> & _ & _).
  rewrite !length_append. simpl. lia.
Qed.

(* ================================================================= *)
(** ** The scan *)

(** The scan does not depend on the fuel once there is enough of it. *)
Lemma sub_from_fuel (repl : string -> string -> result string) (n : nat) :
  forall (m : nat) (bol : bool) (s : string),
    (String.length s < n)%nat -> (String.length s < m)%nat ->
    sub_from n repl bol s = sub_from m repl bol s.
Proof.
  induction n as [| n IH]; intros m bol s Hn Hm; [lia |].
  destruct m as [| m]; [lia |]. simpl.
  destruct (if bol then match_directive s else None) as [[[spc var] rest] |] eqn:E.
  - assert (Hr : (String.length rest < String.length s)%nat).
    { destruct bol; [| discriminate]. now apply match_directive_shorter in E. }
    now rewrite (IH m false rest) by lia.
  - destruct s as [| c s]; [reflexivity |]. simpl in Hn, Hm.
    now rewrite (IH m _ s) by lia.
Qed.

Lemma scan_nil (repl : string -> string -> result string) (bol : bool) :
  scan repl bol "" = Ok "".
Proof. destruct bol; reflexivity. Qed.

Lemma scan_match (repl : string -> string -> result string) (s spc var rest : string) :
  match_directive s = Some (spc, var, rest) ->
  scan repl true s
  = (text <- repl spc var ;; out <- scan repl false rest ;; Ok (text ++ out)).
Proof.
  intros H. unfold scan at 1. cbn [sub_from]. rewrite H.
  pose proof (match_directive_shorter _ _ _ _ H) as Hr.
  unfold scan. now rewrite (sub_from_fuel repl _ (S (String.length rest))) by lia.
Qed.

Lemma scan_char (repl : string -> string -> result string)
    (bol : bool) (c : ascii) (s : string) :
  (if bol then match_directive (String c s) else None) = None ->
  scan repl bol (String c s)
  = (out <- scan repl (c =? newline)%char s ;; Ok (String c out)).
Proof.
  intros H. unfold scan at 1. cbn [sub_from]. rewrite H.
  unfold scan. now rewrite (sub_from_fuel repl _ (S (String.length s))) by (simpl; lia).
Qed.

(** The scan never runs out of fuel. *)
Lemma scan_has_fuel (repl : string -> string -> result string) (n : nat) :
  (forall spc var, repl spc var <> Raise OutOfFuel) ->
  forall (bol : bool) (s : string),
    (String.length s < n)%nat -> scan repl bol s <> Raise OutOfFuel.
Proof.
  intros Hrepl. induction n as [| n IH]; intros bol s Hn; [lia |].
  destruct (if bol then match_directive s else None) as [[[spc var] rest] |] eqn:E.
  - destruct bol; [| discriminate]. rewrite (scan_match _ _ _ _ _ E).
    pose proof (match_directive_shorter _ _ _ _ E) as Hr.
    specialize (Hrepl spc var). specialize (IH false rest ltac:(lia)).
    destruct (repl spc var); simpl; [| congruence].
    destruct (scan repl false rest); simpl; congruence.
  - destruct s as [| c s]; [now rewrite scan_nil |].
    rewrite (scan_char _ _ _ _ E). simpl in Hn.
    specialize (IH (c =? newline)%char s ltac:(lia)).
    destruct (scan repl (c =? newline)%char s); simpl; congruence.
Qed.

(* ================================================================= *)
(** ** Lines that are not directives *)

Lemma has_newline_false (s : string) :
  has_newline s = false <->
  forallb_string (fun c => negb (c =? newline)%char) s = true.
Proof. unfold has_newline. apply negb_false_iff. Qed.

Lemma no_newline_app (a b : string) :
  has_newline (a ++ b) = false <-> has_newline a = false /\ has_newline b = false.
Proof.
  rewrite !has_newline_false, forallb_string_app. apply andb_true_iff.
Qed.

Lemma directive_no_newline (var : string) :
  forallb_string is_directive_char var = true -> has_newline var = false.
Proof.
  intros H. apply has_newline_false.
  apply forallb_string_impl with is_directive_char; [| exact H].
  intros c Hc. now rewrite directive_char_not_newline.
Qed.

(** A text that ends with a newline, cut in two: the second part is
    empty or ends with a newline. *)
Lemma ends_with_newline_suffix (p a b : string) :
  p ++ nl = a ++ b -> b = "" \/ exists b', b = b' ++ nl.
Proof.
  intros H. apply append_eq_append in H as [(e & -> & ->) | (e & -> & H)].
  - right. now exists e.
  - destruct e as [| c e]; simpl in H.
    + right. exists "". now rewrite <- H.
    + injection H as _ H. destruct e; [| discriminate]. simpl in H. now left.
Qed.

Lemma ends_with_newline_has (b' : string) : has_newline (b' ++ nl) = true.
Proof.
  unfold has_newline. rewrite forallb_string_app. simpl.
  now rewrite andb_false_r.
Qed.

(** The text matched by the pattern does not end a text that ends with
    a newline. *)
Lemma match_not_at_newline (p spc var : string) :
  directive_line spc var -> p ++ nl <> spc ++ "// $" ++ var.
Proof.
  intros (_ & Hne & Hvar) H.
  rewrite <- (append_assoc spc "// $" var) in H.
  apply ends_with_newline_suffix in H as [-> | (b' & ->)]; [contradiction |].
  apply directive_no_newline in Hvar. now rewrite ends_with_newline_has in Hvar.
Qed.

Lemma at_line_end_nonempty (s : string) :
  at_line_end s -> s <> "" -> exists p, s = nl ++ p.
Proof. intros [-> | H] Hs; [contradiction | exact H]. Qed.

Section Line.
Variables (line post : string).
Hypothesis line_one : has_newline line = false.
Hypothesis line_not_blank : forallb_string is_space line = false.
Hypothesis line_not_directive :
  forall spc var, directive_line spc var -> line <> spc ++ "// $" ++ var.
Hypothesis post_starts : at_line_end post.

(** No match of the pattern starts at the start of the line. *)
Lemma no_match_at_line (spc var rest : string) :
  directive_line spc var -> at_line_end rest ->
  line ++ post <> spc ++ "// $" ++ var ++ rest.
Proof.
  intros Hd Hrest H.
  rewrite <- marker_assoc in H.
  apply append_eq_append in H as [(e & Hl & Hr) | (e & Hm & Hp)].
  - destruct e as [| c e].
    + rewrite append_nil_r in Hl. now apply (line_not_directive spc var).
    + destruct Hrest as [-> | (q & ->)]; [discriminate |].
      injection Hr as <- _. subst line.
      apply no_newline_app in line_one as [_ Hn]. discriminate Hn.
  - destruct e as [| c e].
    + rewrite append_nil_r in Hm. now apply (line_not_directive spc var).
    + destruct post_starts as [Hp0 | (q & Hq)]; [rewrite Hp0 in Hp; discriminate |].
      rewrite Hq in Hp. injection Hp as <- _.
      destruct Hd as (Hspc & _ & Hvar).
      apply append_eq_append in Hm as [(x & -> & Hx) | (x & -> & Hx)].
      * rewrite forallb_string_app, line_not_blank in Hspc. discriminate.
      * assert (Hn : has_newline ("// $" ++ var) = false)
          by (apply no_newline_app; split;
              [reflexivity | now apply directive_no_newline]).
        rewrite Hx in Hn. apply no_newline_app in Hn as [_ Hn]. discriminate Hn.
Qed.

Lemma match_directive_line : match_directive (line ++ post) = None.
Proof.
  destruct (match_directive (line ++ post)) as [[[spc var] rest] |] eqn:E;
    [| reflexivity].
  apply match_directive_spec in E as (E & Hd & Hr).
  now apply no_match_at_line in E.
Qed.

(** After a text that ends a line, the pattern matches with the line
    behind it as it does without. *)
Lemma match_directive_before_line (p : string) :
  match_directive ((p ++ nl) ++ line ++ post)
  = match match_directive (p ++ nl) with
    | Some (spc, var, rest) => Some (spc, var, rest ++ line ++ post)
    | None => None
    end.
Proof.
  destruct (match_directive (p ++ nl)) as [[[spc var] rest] |] eqn:Ep.
  - apply match_directive_spec in Ep as (Ep & Hd & Hr).
    destruct rest as [| c rest].
    + rewrite append_nil_r in Ep. now apply match_not_at_newline in Ep.
    + rewrite Ep.
      rewrite <- (marker_assoc spc var (String c rest)), append_assoc, marker_assoc.
      apply match_directive_complete; [exact Hd |].
      apply (at_line_end_app (String c rest)); [discriminate | exact Hr].
  - destruct (match_directive ((p ++ nl) ++ line ++ post))
      as [[[spc var] rest] |] eqn:Ef; [| reflexivity].
    exfalso.
    apply match_directive_spec in Ef as (Ef & Hd & Hr).
    rewrite <- marker_assoc in Ef.
    apply append_eq_append in Ef as [(e & Hpre & Hrest) | (e & Hm & Hl)].
    + destruct e as [| c e].
      * rewrite append_nil_r in Hpre. now apply match_not_at_newline in Hpre.
      * assert (He : at_line_end (String c e)).
        { destruct Hr as [-> | (q & ->)]; [discriminate |].
          injection Hrest as <- _. right. now exists e. }
        rewrite Hpre in Ep.
        rewrite marker_assoc in Ep.
        rewrite (match_directive_complete _ _ _ Hd He) in Ep. discriminate.
    + destruct Hd as (Hspc & Hne & Hvar).
      apply append_eq_append in Hm as [(x & Hs & Hx) | (x & Hs & Hx)].
      * (* the blanks of the match end in the line *)
        subst spc. rewrite forallb_string_app in Hspc.
        apply andb_prop in Hspc as [_ Hx2].
        apply (no_match_at_line x var rest); [now repeat split | exact Hr |].
        rewrite Hl, Hx. now rewrite append_assoc.
      * destruct x as [| c x].
        -- rewrite append_nil_r in Hs. simpl in Hx.
           apply (no_match_at_line "" var rest); [now repeat split | exact Hr |].
           rewrite Hl, <- Hx. reflexivity.
        -- apply ends_with_newline_suffix in Hs as [Hs | (b' & Hs)];
             [discriminate |].
           assert (Hn : has_newline ("// $" ++ var) = false)
             by (apply no_newline_app; split;
                 [reflexivity | now apply directive_no_newline]).
           rewrite Hx, Hs in Hn. apply no_newline_app in Hn as [Hn _].
           now rewrite ends_with_newline_has in Hn.
Qed.

Variable repl : string -> string -> result string.

Lemma scan_within_line (l : string) :
  has_newline l = false ->
  scan repl false (l ++ post)
  = (b <- scan repl false post ;; Ok (l ++ b)).
Proof.
  induction l as [| c l IH]; intros Hl.
  - simpl. now destruct (scan repl false post).
  - change (String c l ++ post) with (String c (l ++ post)).
    rewrite scan_char by reflexivity.
    apply has_newline_false in Hl. simpl in Hl. apply andb_prop in Hl as [Hc Hl].
    apply negb_true_iff in Hc. rewrite Hc.
    rewrite IH by now apply has_newline_false.
    now destruct (scan repl false post).
Qed.

Lemma scan_line (bol : bool) :
  scan repl bol (line ++ post)
  = (b <- scan repl false post ;; Ok (line ++ b)).
Proof.
  assert (Hgen : forall l,
             match_directive (l ++ post) = None ->
             has_newline l = false -> forallb_string is_space l = false ->
             scan repl bol (l ++ post)
             = (b <- scan repl false post ;; Ok (l ++ b))).
  { intros [| c l] Hm Hl Hb; [discriminate Hb |].
    change (String c l ++ post) with (String c (l ++ post)) in *.
    rewrite scan_char by (destruct bol; [exact Hm | reflexivity]).
    apply has_newline_false in Hl. simpl in Hl.
    apply andb_prop in Hl as [Hc Hl]. apply negb_true_iff in Hc. rewrite Hc.
    rewrite scan_within_line by now apply has_newline_false.
    now destruct (scan repl false post). }
  apply Hgen;
    [apply match_directive_line | exact line_one | exact line_not_blank].
Qed.

(** The scan of a text around the line: the line is copied as it is,
    between the scan of what is before it and the scan of what is after. *)
Lemma scan_around_line (n : nat) :
  forall (bol : bool) (pre : string),
    (String.length pre < n)%nat ->
    at_line_start pre ->
    scan repl bol (pre ++ line ++ post)
    = (a <- scan repl bol pre ;;
       b <- scan repl false post ;;
       Ok (a ++ line ++ b)).
Proof.
  induction n as [| n IH]; intros bol pre Hn Hpre; [lia |].
  destruct Hpre as [-> | (p & Hp)].
  - rewrite scan_nil. simpl. apply scan_line.
  - assert (Hctx := match_directive_before_line p). rewrite <- Hp in Hctx.
    destruct (if bol then match_directive pre else None)
      as [[[spc var] rest] |] eqn:E.
    + destruct bol; [| discriminate].
      rewrite E in Hctx.
      rewrite (scan_match _ _ _ _ _ Hctx), (scan_match _ _ _ _ _ E).
      pose proof (match_directive_shorter _ _ _ _ E) as Hshort.
      apply match_directive_spec in E as (E & Hd & Hr).
      assert (Hrest : at_line_start rest).
      { rewrite Hp in E.
        rewrite <- marker_assoc in E.
        apply ends_with_newline_suffix in E as [-> | Hb]; [now left | now right]. }
      rewrite (IH false rest) by (assumption || lia).
      destruct (repl spc var) as [text |]; simpl; [| reflexivity].
      destruct (scan repl false rest) as [a |]; simpl; [| reflexivity].
      destruct (scan repl false post) as [b |]; simpl; [| reflexivity].
      now rewrite append_assoc.
    + destruct pre as [| c pre'].
      { destruct p; discriminate Hp. }
      assert (E' : (if bol then match_directive (String c pre' ++ line ++ post)
                    else None) = None).
      { destruct bol; [| reflexivity]. rewrite Hctx, E. reflexivity. }
      change (String c pre' ++ line ++ post) with (String c (pre' ++ line ++ post)) in *.
      rewrite (scan_char _ _ _ _ E'), (scan_char _ _ _ _ E).
      assert (Hpre' : at_line_start pre').
      { change (String c pre') with (String c "" ++ pre') in Hp.
        symmetry in Hp.
        apply ends_with_newline_suffix in Hp as [-> | Hb]; [now left | now right]. }
      simpl in Hn.
      rewrite (IH _ pre') by (assumption || lia).
      destruct (scan repl (c =? newline)%char pre') as [a |]; simpl; [| reflexivity].
      destruct (scan repl false post) as [b |]; simpl; reflexivity.
Qed.
End Line.

(** A line the pattern does not match is not a directive line. *)
Lemma not_matched_not_directive (line : string) :
  match_directive line = None ->
  forall spc var, directive_line spc var -> line <> spc ++ "// $" ++ var.
Proof.
  intros H spc var Hd ->.
  pose proof (match_directive_complete spc var "" Hd (or_introl eq_refl)) as Hc.
  rewrite append_nil_r in Hc. congruence.
Qed.

(** C10.  A line of the template that is not blank and is not made of
    leading blanks, the marker [// $] and an identifier of upper-case
    letters and underscores up to its end (so every near miss: an
    identifier in lower or mixed case, text after the identifier, a
    missing space) is copied to the output as it is, between the
    outputs for the text before it and for the text after it: it is not
    replaced and it raises nothing.  And whatever the pattern matches is
    of that form. *)
Theorem near_miss_lines_are_copied
    (cuts : list cut) (pre line post : string) :
  at_line_start pre -> at_line_end post ->
  has_newline line = false ->
  forallb_string is_space line = false ->
  (forall spc var, directive_line spc var -> line <> spc ++ "// $" ++ var) ->
  re_sub (substitute cuts) (pre ++ line ++ post)
  = (a <- re_sub (substitute cuts) pre ;;
     b <- scan (substitute cuts) false post ;;
     Ok (a ++ line ++ b))
  /\ forall s spc var rest,
      match_directive s = Some (spc, var, rest) ->
      s = spc ++ "// $" ++ var ++ rest
      /\ directive_line spc var /\ at_line_end rest.
Proof.
  intros Hpre Hpost Hone Hblank Hnot. split.
  - unfold re_sub.
    apply (scan_around_line line post) with (n := S (String.length pre));
      try assumption. lia.
  - apply match_directive_spec.
Qed.

Lemma near_miss_lines_are_copied_witness :
  re_sub (substitute [("0", None, "latest")])
    (("mod x;" ++ nl) ++ "// $mod_cuts" ++ nl ++ "// $MOD_CUTS")
  = (a <- re_sub (substitute [("0", None, "latest")]) ("mod x;" ++ nl) ;;
     b <- scan (substitute [("0", None, "latest")]) false (nl ++ "// $MOD_CUTS") ;;
     Ok (a ++ "// $mod_cuts" ++ b)).
Proof.
  apply (near_miss_lines_are_copied
           [("0", None, "latest")] ("mod x;" ++ nl) "// $mod_cuts"
           (nl ++ "// $MOD_CUTS")).
  - right. exists "mod x;". reflexivity.
  - right. exists "// $MOD_CUTS". reflexivity.
  - vm_compute; reflexivity.
  - vm_compute; reflexivity.
  - apply not_matched_not_directive. vm_compute; reflexivity.
Defined.

(** The near misses: an identifier with a character outside [A-Z_], or
    with text after it, and a marker without its space. *)
Lemma near_miss_identifier (spc w : string) :
  forallb_string is_space spc = true ->
  has_newline w = false ->
  forallb_string is_directive_char w = false ->
  match_directive (spc ++ "// $" ++ w) = None.
Proof.
  intros Hspc Hw Hd. unfold match_directive.
  rewrite (span_app is_space spc) by (assumption || reflexivity).
  rewrite strip_prefix_app.
  destruct (span is_directive_char w) as [v r] eqn:E.
  apply span_spec in E as (-> & Hv & Hr).
  destruct v as [| c v]; [reflexivity |].
  destruct r as [| d r].
  - rewrite append_nil_r in Hd. congruence.
  - apply no_newline_app in Hw as [_ Hw]. apply has_newline_false in Hw.
    simpl in Hw. apply andb_prop in Hw as [Hw _].
    apply negb_true_iff in Hw. now rewrite Hw.
Qed.

Lemma near_miss_missing_space (spc var : string) :
  forallb_string is_space spc = true ->
  match_directive (spc ++ "//$" ++ var) = None.
Proof.
  intros Hspc. unfold match_directive.
  rewrite (span_app is_space spc) by (assumption || reflexivity).
  reflexivity.
Qed.

Example near_misses_copied :
  re_sub (substitute [("0", None, "latest")])
    ("// $mod_cuts" ++ nl ++ "  // $Mod_Cuts" ++ nl ++ "// $MOD_CUTS now"
     ++ nl ++ "//$MOD_CUTS" ++ nl ++ "x // $MOD_CUTS")
  = Ok ("// $mod_cuts" ++ nl ++ "  // $Mod_Cuts" ++ nl ++ "// $MOD_CUTS now"
        ++ nl ++ "//$MOD_CUTS" ++ nl ++ "x // $MOD_CUTS").
Proof. vm_compute; reflexivity. Qed.

(* ================================================================= *)
(** ** Unknown directives *)

Lemma substitute_known (cuts : list cut) (spc var : string) :
  In var known_directives -> exists text, substitute cuts spc var = Ok text.
Proof.
  intros [<- | [<- | [<- | [<- | [<- | []]]]]]; eexists; reflexivity.
Qed.

Lemma substitute_unknown (cuts : list cut) (spc var : string) :
  ~ In var known_directives ->
  substitute cuts spc var
  = Raise (AssertionError ("Don't know how to substitute " ++ var)).
Proof.
  intros H. unfold substitute.
  repeat match goal with
         | |- context [(var =? ?k)%string] =>
             destruct (String.eqb_spec var k) as [-> | _];
             [exfalso; apply H; simpl; tauto |]
         end.
  reflexivity.
Qed.

Lemma substitute_raises (cuts : list cut) (spc var : string) (e : exn) :
  substitute cuts spc var = Raise e ->
  e = AssertionError ("Don't know how to substitute " ++ var)
  /\ ~ In var known_directives.
Proof.
  intros H.
  assert (Hn : ~ In var known_directives).
  { intros Hk. destruct (substitute_known cuts spc var Hk) as (t & Ht). congruence. }
  split; [| exact Hn]. rewrite (substitute_unknown _ _ _ Hn) in H. congruence.
Qed.

Section Unknown.
Variables (cuts : list cut) (spc var post : string).
Hypothesis line_directive : directive_line spc var.
Hypothesis post_starts : at_line_end post.
Hypothesis var_unknown : ~ In var known_directives.

(** The groups of a directive line are determined by the text. *)
Lemma directive_groups_unique (spc' var' rest' : string) :
  directive_line spc' var' -> at_line_end rest' ->
  spc ++ "// $" ++ var ++ post = spc' ++ "// $" ++ var' ++ rest' ->
  var' = var.
Proof.
  intros Hd Hr H.
  pose proof (match_directive_complete _ _ _ line_directive post_starts) as H1.
  pose proof (match_directive_complete _ _ _ Hd Hr) as H2.
  rewrite H in H1. congruence.
Qed.

Lemma scan_unknown_raises (n : nat) :
  forall (bol : bool) (pre : string),
    (String.length pre < n)%nat ->
    at_line_start pre -> (pre = "" -> bol = true) ->
    exists v,
      scan (substitute cuts) bol (pre ++ spc ++ "// $" ++ var ++ post)
      = Raise (AssertionError ("Don't know how to substitute " ++ v))
      /\ ~ In v known_directives.
Proof.
  induction n as [| n IH]; intros bol pre Hn Hpre Hbol; [lia |].
  destruct Hpre as [-> | (p & Hp)].
  - rewrite (Hbol eq_refl). simpl "++".
    rewrite (scan_match _ _ _ _ _
               (match_directive_complete _ _ _ line_directive post_starts)).
    rewrite (substitute_unknown _ _ _ var_unknown). now exists var.
  - destruct (if bol then match_directive (pre ++ spc ++ "// $" ++ var ++ post)
              else None) as [[[spc' var'] rest'] |] eqn:E.
    + destruct bol; [| discriminate].
      rewrite (scan_match _ _ _ _ _ E).
      apply match_directive_spec in E as (E & Hd & Hr).
      rewrite <- (marker_assoc spc' var' rest') in E.
      apply append_eq_append in E as [(e & Hpre & Hrest) | (e & Hm & Hl)].
      * (* the match ends before the directive line *)
        destruct e as [| c e].
        { rewrite append_nil_r in Hpre. rewrite Hp in Hpre.
          now apply match_not_at_newline in Hpre. }
        destruct (substitute cuts spc' var') as [text | e0] eqn:Es.
        -- destruct (IH false (String c e)) as (v & Hv & Hvn).
           ++ rewrite Hpre, !length_append in Hn. simpl in Hn |- *. lia.
           ++ rewrite Hp in Hpre.
              apply ends_with_newline_suffix in Hpre as [Hpre | Hpre];
                [discriminate | now right].
           ++ discriminate.
           ++ exists v. rewrite Hrest, Hv. now split.
        -- apply substitute_raises in Es as [-> Hvn]. now exists var'.
      * (* the match reaches the directive line: it is its match *)
        assert (Hv : var' = var).
        { destruct Hd as (Hspc & Hne & Hvar).
          apply append_eq_append in Hm as [(x & Hs & Hx) | (x & Hs & Hx)].
          - apply (directive_groups_unique x var' rest'); [| exact Hr |].
            + subst spc'. rewrite forallb_string_app in Hspc.
              apply andb_prop in Hspc as [_ Hx2]. now repeat split.
            + rewrite Hl, Hx. now rewrite marker_assoc.
          - destruct x as [| c x].
            + rewrite append_nil_r in Hs. simpl in Hx.
              apply (directive_groups_unique "" var' rest');
                [now repeat split | exact Hr |].
              rewrite Hl, <- Hx. reflexivity.
            + exfalso. rewrite Hp in Hs.
              apply ends_with_newline_suffix in Hs as [Hs | (b' & Hs)];
                [discriminate |].
              assert (Hnl : has_newline ("// $" ++ var') = false)
                by (apply no_newline_app; split;
                    [reflexivity | now apply directive_no_newline]).
              rewrite Hx, Hs in Hnl. apply no_newline_app in Hnl as [Hnl _].
              now rewrite ends_with_newline_has in Hnl. }
        subst var'. rewrite (substitute_unknown _ _ _ var_unknown).
        now exists var.
    + destruct pre as [| c pre'].
      { destruct p; discriminate Hp. }
      change (String c pre' ++ spc ++ "// $" ++ var ++ post)
        with (String c (pre' ++ spc ++ "// $" ++ var ++ post)) in *.
      rewrite (scan_char _ _ _ _ E).
      destruct (IH (c =? newline)%char pre') as (v & Hv & Hvn).
      * simpl in Hn. lia.
      * change (String c pre') with (String c "" ++ pre') in Hp. symmetry in Hp.
        apply ends_with_newline_suffix in Hp as [-> | Hb]; [now left | now right].
      * intros ->. destruct p as [| d p]; simpl in Hp.
        -- injection Hp as ->. reflexivity.
        -- injection Hp as _ Hp. destruct p; discriminate Hp.
      * exists v. rewrite Hv. now split.
Qed.
End Unknown.

(** C9.  A template with a directive line whose identifier is none of
    the five known ones is not expanded: [re.sub] raises the
    [AssertionError] of [substitute], for that identifier or for an
    unknown one met before it, and so does [generate_lib] when the
    registry is built.  Each of the five known identifiers has an
    expansion, for every registry and every indentation. *)
Theorem unknown_directive_is_fatal
    (cuts : list cut) (pre spc var post : string) :
  at_line_start pre -> directive_line spc var -> at_line_end post ->
  ~ In var known_directives ->
  (exists v,
      re_sub (substitute cuts) (pre ++ spc ++ "// $" ++ var ++ post)
      = Raise (AssertionError ("Don't know how to substitute " ++ v))
      /\ ~ In v known_directives)
  /\ (forall listing,
         discover_cuts listing = Ok cuts ->
         exists v,
           generate_lib listing (pre ++ spc ++ "// $" ++ var ++ post)
           = Raise (AssertionError ("Don't know how to substitute " ++ v)))
  /\ (forall spc' var',
         In var' known_directives ->
         exists text, substitute cuts spc' var' = Ok text).
Proof.
  intros Hpre Hd Hpost Hvar.
  assert (H : exists v,
             re_sub (substitute cuts) (pre ++ spc ++ "// $" ++ var ++ post)
             = Raise (AssertionError ("Don't know how to substitute " ++ v))
             /\ ~ In v known_directives).
  { unfold re_sub.
    apply (scan_unknown_raises cuts spc var post Hd Hpost Hvar
             (S (String.length pre))); [lia | exact Hpre | reflexivity]. }
  split; [exact H |]. split.
  - intros listing Hl. destruct H as (v & Hv & _). exists v.
    unfold generate_lib. rewrite Hl. exact Hv.
  - intros spc' var'. apply substitute_known.
Qed.

Lemma unknown_directive_is_fatal_witness :
  exists v,
    re_sub (substitute [("0", None, "latest")])
      (("// $MOD_CUTS" ++ nl) ++ "  " ++ "// $" ++ "EXECUTOR_CUT" ++ (nl ++ "x"))
    = Raise (AssertionError ("Don't know how to substitute " ++ v))
    /\ ~ In v known_directives.
Proof.
  apply (unknown_directive_is_fatal
           [("0", None, "latest")] ("// $MOD_CUTS" ++ nl) "  " "EXECUTOR_CUT"
           (nl ++ "x")).
  - right. exists "// $MOD_CUTS". reflexivity.
  - repeat split; [discriminate].
  - right. exists "x". reflexivity.
  - simpl. intros [H | [H | [H | [H | [H | []]]]]]; discriminate H.
Defined.

(* ================================================================= *)
(** ** The lines of the module list and of the constant list *)

Lemma join_empty (parts : list string) :
  join "" parts = fold_right String.append "" parts.
Proof.
  unfold join. induction parts as [| x parts IH]; [reflexivity |].
  destruct parts as [| y parts].
  - simpl. now rewrite append_nil_r.
  - cbn [fold_right] in *. rewrite <- IH. reflexivity.
Qed.

Lemma lines_newline (r : string) : lines (nl ++ r) = "" :: lines r.
Proof. reflexivity. Qed.

Lemma lines_app (l r : string) :
  has_newline l = false ->
  lines (l ++ r) = (l ++ hd "" (lines r)) :: tl (lines r).
Proof.
  intros Hl. apply has_newline_false in Hl.
  induction l as [| c l IH]; simpl in *.
  - now destruct r as [| c r]; simpl; [| destruct (c =? newline)%char].
  - apply andb_prop in Hl as [Hc Hl]. apply negb_true_iff in Hc.
    rewrite Hc, (IH Hl). reflexivity.
Qed.

(** Texts without a newline, each after a newline: one line for each,
    after an empty first line. *)
Lemma lines_of_blocks (ls : list string) :
  Forall (fun l => has_newline l = false) ls ->
  lines (fold_right String.append "" (map (String.append nl) ls)) = "" :: ls.
Proof.
  induction 1 as [| l ls Hl _ IH]; [reflexivity |].
  cbn [map fold_right]. rewrite append_assoc, lines_newline, (lines_app _ _ Hl), IH.
  simpl. now rewrite append_nil_r.
Qed.

Lemma mod_line_newline (ind : string) (cuts : list cut) :
  map (mod_line (nl ++ ind)) cuts = map (String.append nl) (map (mod_line ind) cuts).
Proof.
  rewrite map_map. apply map_ext. intros c. unfold mod_line.
  now rewrite append_assoc.
Qed.

Lemma const_lines_newline (ind : string) (cuts : list cut) :
  flat_map (const_lines (nl ++ ind)) cuts
  = map (String.append nl) (flat_map (const_lines ind) cuts).
Proof.
  induction cuts as [| c cuts IH]; [reflexivity |].
  cbn [flat_map]. rewrite map_app, IH. f_equal.
  unfold const_lines. destruct (cut_feature c); [| reflexivity].
  cbn [map]. now rewrite append_assoc.
Qed.

(** A directive on the line after a line of text: the line is copied,
    and the directive line is replaced by its expansion. *)
Lemma directive_after_line
    (cuts : list cut) (pre line ind var post text : string) :
  at_line_start pre ->
  has_newline line = false ->
  forallb_string is_space line = false ->
  (forall spc' var', directive_line spc' var' -> line <> spc' ++ "// $" ++ var') ->
  directive_line ind var -> at_line_end post ->
  substitute cuts ind var = Ok text ->
  re_sub (substitute cuts) (pre ++ line ++ nl ++ ind ++ "// $" ++ var ++ post)
  = (a <- re_sub (substitute cuts) pre ;;
     out <- scan (substitute cuts) false post ;;
     Ok (a ++ line ++ nl ++ text ++ out)).
Proof.
  intros Hpre Hone Hblank Hnot Hd Hpost Hsub. unfold re_sub.
  rewrite (scan_around_line line (nl ++ ind ++ "// $" ++ var ++ post)
             Hone Hblank Hnot) with (n := S (String.length pre));
    [| right; now eexists | lia | exact Hpre].
  change (nl ++ ind ++ "// $" ++ var ++ post)
    with (String newline (ind ++ "// $" ++ var ++ post)).
  rewrite scan_char by reflexivity.
  rewrite Ascii.eqb_refl.
  rewrite (scan_match _ _ _ _ _ (match_directive_complete _ _ _ Hd Hpost)), Hsub.
  cbn [bind].
  destruct (scan (substitute cuts) true pre) as [a |]; cbn [bind]; [| reflexivity].
  destruct (scan (substitute cuts) false post) as [out |]; cbn [bind];
    reflexivity.
Qed.

(** A directive on the line after an empty line, the empty line being
    the first line or coming after a line of text: the newline of the
    empty line is matched with the blanks of the directive line, and the
    text before is expanded as it is on its own. *)
Lemma directive_after_empty_line
    (cuts : list cut) (before ind var post text : string) :
  ends_with_text before ->
  directive_line (nl ++ ind) var -> at_line_end post ->
  substitute cuts (nl ++ ind) var = Ok text ->
  re_sub (substitute cuts) (before ++ nl ++ ind ++ "// $" ++ var ++ post)
  = (a <- re_sub (substitute cuts) before ;;
     out <- scan (substitute cuts) false post ;;
     Ok (a ++ text ++ out)).
Proof.
  intros [-> | (pre & line & -> & Hpre & Hone & Hblank & Hnot)] Hd Hpost Hsub.
  - change ("" ++ nl ++ ind ++ "// $" ++ var ++ post)
      with ((nl ++ ind) ++ "// $" ++ var ++ post).
    unfold re_sub.
    rewrite (scan_match _ _ _ _ _ (match_directive_complete _ _ _ Hd Hpost)), Hsub.
    rewrite scan_nil. cbn [bind].
    destruct (scan (substitute cuts) false post); reflexivity.
  - replace ((pre ++ line ++ nl) ++ nl ++ ind ++ "// $" ++ var ++ post)
      with (pre ++ line ++ nl ++ (nl ++ ind) ++ "// $" ++ var ++ post)
      by (now rewrite !append_assoc).
    rewrite (directive_after_line cuts pre line (nl ++ ind) var post text)
      by assumption.
    assert (E : re_sub (substitute cuts) (pre ++ line ++ nl)
                = (a <- re_sub (substitute cuts) pre ;; Ok (a ++ line ++ nl))).
    { unfold re_sub.
      rewrite (scan_around_line line nl Hone Hblank Hnot)
        with (n := S (String.length pre));
        [| right; now exists "" | lia | exact Hpre].
      destruct (scan (substitute cuts) true pre); reflexivity. }
    rewrite E.
    destruct (re_sub (substitute cuts) pre) as [a |]; cbn [bind]; [| reflexivity].
    destruct (scan (substitute cuts) false post) as [out |]; cbn [bind];
      [| reflexivity].
    now rewrite !append_assoc.
Qed.

(** C5 (amended).  For every registry whose names hold no newline, and
    every template in which the module-list directive, or the
    constant-list directive, stands on the line after an empty line, the
    empty line being the first line of the template or coming after a
    line of text (a line that is not blank and is not a directive line):
    the text before the empty line is expanded as it is on its own, and
    the text put in place of the empty line and the directive is an
    empty line followed by one module-declaration line for each cut, or
    one constant-declaration line for each feature cut, each of these
    lines with the indentation of the directive line.  (The declarations
    are joined without a separator: each one is preceded by the blanks
    matched before the marker, and the newline of the empty line is what
    separates them.) *)
Theorem declarations_on_lines_after_blank_line
    (cuts : list cut) (before ind post : string) :
  ends_with_text before ->
  forallb_string is_space ind = true ->
  has_newline ind = false ->
  at_line_end post ->
  (forall c, In c cuts ->
             has_newline (cut_module c) = false
             /\ has_newline (cut_version c) = false
             /\ forall f, cut_feature c = Some f -> has_newline f = false) ->
  (exists text,
      lines text = "" :: map (mod_line ind) cuts
      /\ List.length (map (mod_line ind) cuts) = List.length cuts
      /\ re_sub (substitute cuts)
           (before ++ nl ++ ind ++ "// $" ++ "MOD_CUTS" ++ post)
         = (a <- re_sub (substitute cuts) before ;;
            out <- scan (substitute cuts) false post ;;
            Ok (a ++ text ++ out)))
  /\ (exists text,
         lines text = "" :: flat_map (const_lines ind) cuts
         /\ List.length (flat_map (const_lines ind) cuts)
            = List.length (feature_cuts cuts)
         /\ re_sub (substitute cuts)
              (before ++ nl ++ ind ++ "// $" ++ "FEATURE_CONSTS" ++ post)
            = (a <- re_sub (substitute cuts) before ;;
               out <- scan (substitute cuts) false post ;;
               Ok (a ++ text ++ out))).
Proof.
  intros Hbefore Hspc Hind Hpost Hcuts.
  assert (Hd : forall var,
             var <> "" -> forallb_string is_directive_char var = true ->
             directive_line (nl ++ ind) var).
  { intros var Hne Hvar. repeat split; assumption. }
  split.
  - exists (join "" (map (mod_line (nl ++ ind)) cuts)). split; [| split].
    + rewrite join_empty, mod_line_newline. apply lines_of_blocks.
      rewrite Forall_forall. intros l Hl.
      apply in_map_iff in Hl as (c & <- & Hc).
      destruct (Hcuts c Hc) as (Hm & _ & _). unfold mod_line.
      repeat (apply no_newline_app; split); try assumption; reflexivity.
    + apply length_map.
    + apply directive_after_empty_line; try assumption; [| reflexivity].
      apply Hd; [discriminate | reflexivity].
  - exists (join "" (flat_map (const_lines (nl ++ ind)) cuts)). split; [| split].
    + rewrite join_empty, const_lines_newline. apply lines_of_blocks.
      rewrite Forall_forall. intros l Hl.
      apply in_flat_map in Hl as (c & Hc & Hl).
      destruct (Hcuts c Hc) as (_ & Hv & Hf). unfold const_lines in Hl.
      destruct (cut_feature c) as [f |]; [| contradiction].
      destruct Hl as [<- | []]. specialize (Hf f eq_refl).
      repeat (apply no_newline_app; split); try assumption; reflexivity.
    + clear. induction cuts as [| c cuts IH]; [reflexivity |].
      cbn [flat_map]. rewrite length_app, IH.
      unfold feature_cuts, const_lines, is_snapshot_cut. cbn [filter].
      destruct (cut_feature c); reflexivity.
    + apply directive_after_empty_line; try assumption; [| reflexivity].
      apply Hd; [discriminate | reflexivity].
Qed.

Lemma declarations_on_lines_after_blank_line_witness :
  exists text,
    lines text
    = "" :: map (mod_line "  ")
              [("0", None, "v0"); ("1", None, "latest"); ("u64::MAX", Some "A", "a")]
    /\ re_sub (substitute [("0", None, "v0"); ("1", None, "latest");
                           ("u64::MAX", Some "A", "a")])
         (("" ++ "pub mod executor;" ++ nl) ++ nl ++ "  " ++ "// $" ++ "MOD_CUTS"
          ++ (nl ++ "// end"))
       = (a <- re_sub (substitute [("0", None, "v0"); ("1", None, "latest");
                                   ("u64::MAX", Some "A", "a")])
                 ("" ++ "pub mod executor;" ++ nl) ;;
          out <- scan (substitute [("0", None, "v0"); ("1", None, "latest");
                                   ("u64::MAX", Some "A", "a")])
                   false (nl ++ "// end") ;;
          Ok (a ++ text ++ out)).
Proof.
  destruct (declarations_on_lines_after_blank_line
              [("0", None, "v0"); ("1", None, "latest"); ("u64::MAX", Some "A", "a")]
              ("" ++ "pub mod executor;" ++ nl) "  " (nl ++ "// end"))
    as [(text & Hl & _ & Hr) _].
  - right. exists "", "pub mod executor;". split; [reflexivity |].
    split; [now left |]. split; [reflexivity |]. split; [reflexivity |].
    apply not_matched_not_directive. vm_compute; reflexivity.
  - reflexivity.
  - reflexivity.
  - right. now exists "// end".
  - intros c [<- | [<- | [<- | []]]]; (split; [reflexivity |]);
      (split; [reflexivity |]); intros f [= <-]; reflexivity.
  - exists text. split; [exact Hl | exact Hr].
Defined.

Lemma re_sub_has_fuel (cuts : list cut) (template : string) :
  re_sub (substitute cuts) template <> Raise OutOfFuel.
Proof.
  apply (scan_has_fuel _ (S (String.length template))); [| lia].
  intros spc var H. apply substitute_raises in H as [H _]. discriminate H.
Qed.

(* ================================================================= *)
(** ** What the patterns accept *)

(** [feature] accepts exactly the names that start with a lower-case
    letter; the identifiers are among them. *)
Lemma feature_accepts (f : string) :
  feature f = Ok f
  <-> exists c rest, f = String c rest /\ is_lower c = true.
Proof.
  unfold feature, match_feature. split.
  - destruct f as [| c rest]; [discriminate |].
    destruct (is_lower c) eqn:E; [| discriminate].
    intros _. now exists c, rest.
  - intros (c & rest & -> & ->). reflexivity.
Qed.

Lemma feature_accepts_identifiers (f : string) :
  is_identifier f = true -> feature f = Ok f.
Proof.
  intros H. apply feature_accepts.
  destruct f as [| c rest]; [discriminate |].
  apply andb_prop in H as [Hc _]. now exists c, rest.
Qed.

(** The pattern of [discover_cuts] accepts the snapshot names, and with
    them every name that starts like one. *)
Lemma snapshot_names_match (s : string) :
  is_snapshot_name s = true -> match_snapshot s = true.
Proof.
  unfold is_snapshot_name, match_snapshot. intros H.
  apply orb_prop in H as [H | H].
  - apply String.eqb_eq in H. now subst.
  - apply orb_true_iff. right.
    destruct s as [| c ds]; [discriminate |].
    destruct (Ascii.eqb_spec c "v") as [-> | Hc].
    + destruct ds as [| d ds]; [discriminate |].
      simpl in H. now apply andb_prop in H as [H _].
    + exfalso. revert H Hc.
      destruct c as [[] [] [] [] [] [] [] []]; try discriminate; congruence.
Qed.

Lemma prefix_append (a : string) :
  forall s more : string,
    String.prefix a s = true -> String.prefix a (s ++ more) = true.
Proof.
  induction a as [| c a IH]; intros s more H.
  - now destruct (s ++ more).
  - destruct s as [| d s]; [discriminate H |]. simpl in *.
    destruct (ascii_dec c d); [now apply IH | discriminate H].
Qed.

Lemma match_snapshot_prefix (s more : string) :
  match_snapshot s = true -> match_snapshot (s ++ more) = true.
Proof.
  unfold match_snapshot. intros H. apply orb_prop in H as [H | H].
  - apply orb_true_iff. left. now apply prefix_append.
  - apply orb_true_iff. right.
    destruct s as [| c [| d s]]; try discriminate H;
      [destruct c as [[] [] [] [] [] [] [] []]; discriminate H |].
    exact H.
Qed.

(* ================================================================= *)
(** ** [latest] after other snapshots *)

Lemma assign_not_latest (nums : list string) :
  Forall (fun s => (s =? "latest") = false) nums ->
  forall (rest : list string) (cuts : list cut),
    assign_snapshots (nums ++ rest) cuts
    = assign_snapshots rest (cuts ++ map (fun s => (tail s, None, s)) nums).
Proof.
  induction 1 as [| s nums Hs _ IH]; intros rest cuts.
  - simpl. now rewrite app_nil_r.
  - rewrite <- app_comm_cons. cbn [assign_snapshots map]. rewrite Hs. cbn [negb].
    rewrite IH, <- app_assoc. reflexivity.
Qed.

Lemma mapM_map {A B C : Type} (f : B -> result C) (g : A -> B) (l : list A) :
  mapM f (map g l) = mapM (fun x => f (g x)) l.
Proof. induction l as [| x l IH]; simpl; [| rewrite IH]; reflexivity. Qed.

(** With at least one other snapshot, the others receive the text after
    the first letter of their names and [latest] receives one more than
    the largest of these numbers. *)
Lemma latest_after_others (nums : list string) (v : Z) (vs : list Z) :
  Forall (fun s => (s =? "latest") = false) nums ->
  mapM (fun s => int (tail s)) nums = Ok (v :: vs) ->
  assign_snapshots (nums ++ ["latest"]) []
  = Ok (map (fun s => (tail s, None, s)) nums
        ++ [(str (1 + fold_left Z.max vs v), None, "latest")])%list.
Proof.
  intros Hn Hv. rewrite (assign_not_latest _ Hn), app_nil_l.
  cbn [assign_snapshots]. change ("latest" =? "latest") with true. cbn [negb].
  unfold max_version. rewrite mapM_map.
  unfold cut_version. cbn [fst]. rewrite Hv. reflexivity.
Qed.

(* ================================================================= *)
(** ** The code at particular inputs *)

(** C2.  A listing whose only snapshot module is [latest]: the registry
    is empty when [latest] is reached, [max] of an empty sequence raises
    [ValueError], and no version, [0] or other, is assigned.  With the
    support modules or a feature module next to it the outcome is the
    same.  (After other snapshots [latest] does receive one more than the
    largest version: [latest_after_others].) *)
Theorem latest_alone_raises :
  discover_cuts [file "latest"] = Raise ValueError
  /\ discover_cuts [file "lib"; file "latest"; file "executor"] = Raise ValueError
  /\ discover_cuts [file "latest"; file "a"] = Raise ValueError.
Proof. repeat split; vm_compute; reflexivity. Qed.

(** C3.  The name [v1x] is not a snapshot name, yet the pattern of
    [discover_cuts], anchored at the start only, accepts it: the module is
    put with the snapshots and [int("1x")] in [snapshot_key] raises
    [ValueError].  The same goes for [latest_x]. *)
Theorem v1x_is_taken_for_a_snapshot :
  is_snapshot_name "v1x" = false
  /\ match_snapshot "v1x" = true
  /\ classify [file "v1x"] = (["v1x"], [])
  /\ discover_cuts [file "v1x"] = Raise ValueError
  /\ is_snapshot_name "latest_x" = false
  /\ classify [file "latest_x"] = (["latest_x"], [])
  /\ discover_cuts [file "v0"; file "latest"; file "latest_x"] = Raise ValueError.
Proof. repeat split; vm_compute; reflexivity. Qed.

(** C6.  The name [a-b] is not an identifier, yet [feature] accepts it:
    the pattern is matched at the start of the name only and the match
    [a] is enough. *)
Theorem feature_accepts_malformed_name :
  is_identifier "a-b" = false
  /\ match_feature "a-b" = Some "a"
  /\ feature "a-b" = Ok "a-b"
  /\ feature "x; rm -rf /" = Ok "x; rm -rf /".
Proof. repeat split; vm_compute; reflexivity. Qed.

(** C1, as stated, fails: with [b] created before [a], the order of the
    specification gives [b] the version [u64::MAX]; [discover_cuts] gives
    it to [a]. *)
Lemma creation_order_not_followed :
  let ctime := fun s => if (s =? "b")%string then 1%Z else 2%Z in
  let listing := [file "b"; file "a"] in
  assign_features 0 (sort_by_creation ctime (snd (classify listing)))
  = [("u64::MAX", Some "B", "b"); ("u64::MAX - 1", Some "A", "a")]
  /\ discover_cuts listing
     = Ok [("u64::MAX", Some "A", "a"); ("u64::MAX - 1", Some "B", "b")]
  /\ discover_cuts listing
     <> Ok (assign_features 0 (sort_by_creation ctime (snd (classify listing)))).
Proof.
  intros ctime listing.
  split; [vm_compute; reflexivity |].
  split; [vm_compute; reflexivity |].
  vm_compute; discriminate.
Qed.

(** C4, as stated, fails: with the snapshots [v0], [v2] and [latest] the
    versions are [0], [2] and [3], not [0..=2], and [latest] has [3]. *)
Lemma versions_not_contiguous :
  discover_cuts [file "v0"; file "v2"; file "latest"]
  = Ok [("0", None, "v0"); ("2", None, "v2"); ("3", None, "latest")]
  /\ ~ contiguous_versions
         (snapshot_cuts [("0", None, "v0"); ("2", None, "v2"); ("3", None, "latest")]).
Proof.
  split; [vm_compute; reflexivity |].
  intros [_ Hlatest].
  specialize (Hlatest ("3", None, "latest")).
  simpl in Hlatest.
  assert (H : "3" = "2") by (apply Hlatest; [right; right; left |]; reflexivity).
  discriminate H.
Qed.

(** C5, as stated, fails: for the registry of the modules [v0],
    [latest], [a] and [b], a module-list directive on the line after a
    line of code, or on the first line of the template, gives one line
    holding the four declarations, and the two constants likewise share
    a line. *)
Lemma declarations_share_a_line :
  let listing := [file "v0"; file "latest"; file "a"; file "b"] in
  let cuts := [("0", None, "v0"); ("1", None, "latest");
               ("u64::MAX", Some "A", "a"); ("u64::MAX - 1", Some "B", "b")] in
  discover_cuts listing = Ok cuts
  /\ generate_lib listing ("use x;" ++ nl ++ "  // $MOD_CUTS" ++ nl ++ "// end")
     = Ok ("use x;" ++ nl ++ "  mod v0;  mod latest;  mod a;  mod b;" ++ nl
           ++ "// end")
  /\ lines ("use x;" ++ nl ++ "  mod v0;  mod latest;  mod a;  mod b;" ++ nl
            ++ "// end")
     = ["use x;"; "  mod v0;  mod latest;  mod a;  mod b;"; "// end"]
  /\ generate_lib listing "  // $MOD_CUTS"
     = Ok "  mod v0;  mod latest;  mod a;  mod b;"
  /\ lines "  mod v0;  mod latest;  mod a;  mod b;"
     = ["  mod v0;  mod latest;  mod a;  mod b;"]
  /\ List.length (lines "  mod v0;  mod latest;  mod a;  mod b;")
     <> List.length cuts
  /\ generate_lib listing "// $FEATURE_CONSTS"
     = Ok "pub const A: u64 = u64::MAX;pub const B: u64 = u64::MAX - 1;"
  /\ List.length (lines "pub const A: u64 = u64::MAX;pub const B: u64 = u64::MAX - 1;")
     = 1
  /\ List.length (feature_cuts cuts) = 2.
Proof.
  intros listing cuts.
  split; [vm_compute; reflexivity |].
  split; [vm_compute; reflexivity |].
  split; [vm_compute; reflexivity |].
  split; [vm_compute; reflexivity |].
  split; [vm_compute; reflexivity |].
  split; [vm_compute; discriminate |].
  split; [vm_compute; reflexivity |].
  split; vm_compute; reflexivity.
Qed.

(** C8, as stated, fails: the modules [v01], [v1] and [latest] listed in
    two orders give two registries, and two generated texts. *)
Lemma listing_order_shows :
  let l1 := [file "v01"; file "v1"; file "latest"] in
  let l2 := [file "v1"; file "v01"; file "latest"] in
  Permutation l1 l2
  /\ discover_cuts l1
     = Ok [("01", None, "v01"); ("1", None, "v1"); ("2", None, "latest")]
  /\ discover_cuts l2
     = Ok [("1", None, "v1"); ("01", None, "v01"); ("2", None, "latest")]
  /\ discover_cuts l1 <> discover_cuts l2
  /\ generate_lib l1 "// $MOD_CUTS" <> generate_lib l2 "// $MOD_CUTS".
Proof.
  intros l1 l2.
  split; [apply perm_swap |].
  split; [vm_compute; reflexivity |].
  split; [vm_compute; reflexivity |].
  split; vm_compute; discriminate.
Qed.

(* ================================================================= *)
(** * Further properties of the discovery *)

(** [int(str(z)) = z] for every integer, negative ones included. *)
Lemma int_str_Z (z : Z) : int (str z) = Ok z.
Proof.
  destruct (Z.ltb_spec z 0) as [Hneg | Hpos].
  - unfold str. rewrite (proj2 (Z.ltb_lt z 0) Hneg).
    pose proof (digits_of_uint (Nat.to_uint (Z.abs_nat z))) as Hd.
    fold (str_nat (Z.abs_nat z)) in Hd.
    unfold int.
    rewrite no_space_strip.
    + change ("-" ++ str_nat (Z.abs_nat z)) with (String "-" (str_nat (Z.abs_nat z))).
      cbv iota beta. rewrite int_body_str_nat. f_equal. lia.
    + change ("-" ++ str_nat (Z.abs_nat z)) with (String "-" (str_nat (Z.abs_nat z))).
      cbn [forallb_string]. change (negb (is_blank "-")) with true. cbn [andb].
      apply forallb_string_impl with is_digit; [apply digit_not_space | exact Hd].
  - rewrite <- (Z2Nat.id z) by lia. apply int_str.
Qed.

Lemma mapM_Raise {A B : Type} (f : A -> result B) (l : list A) (e : exn) :
  mapM f l = Raise e -> exists x, In x l /\ f x = Raise e.
Proof.
  induction l as [| x l IH]; simpl; [discriminate |].
  destruct (f x) as [y | e'] eqn:E; simpl.
  - destruct (mapM f l) as [ys | e'']; simpl; [discriminate |].
    intros [= <-]. destruct (IH eq_refl) as (x' & Hx & Hf).
    exists x'. split; [now right | exact Hf].
  - intros [= <-]. exists x. split; [now left | exact E].
Qed.

Lemma mapM_Ok_all {A B : Type} (f : A -> result B) (l : list A) :
  (forall x, In x l -> exists y, f x = Ok y) -> exists r, mapM f l = Ok r.
Proof.
  induction l as [| x l IH]; intros H; simpl; [now exists [] |].
  destruct (H x (or_introl eq_refl)) as (y & ->).
  destruct IH as (r & ->); [intros x' Hx'; apply H; now right |].
  now exists (y :: r).
Qed.

Lemma Forall2_In_l {A B : Type} (R : A -> B -> Prop) (l : list A) (r : list B) (x : A) :
  Forall2 R l r -> In x l -> exists y, In y r /\ R x y.
Proof.
  induction 1 as [| x' y l r Hxy _ IH]; intros Hx; [contradiction |].
  destruct Hx as [<- | Hx].
  - exists y. split; [now left | assumption].
  - destruct (IH Hx) as (y' & Hy' & HR). exists y'. split; [now right | assumption].
Qed.

(* ----------------------------------------------------------------- *)
(** *** The two groups of [classify] *)

Lemma classify_stems (listing : list entry) :
  Permutation (fst (classify listing) ++ snd (classify listing))
              (map stem (filter is_cut_file listing)).
Proof.
  induction listing as [| f rest IH]; [constructor |].
  cbn [classify filter]. unfold is_cut_file at 1.
  destruct (classify rest) as [snaps feats]. cbn [fst snd] in IH.
  destruct (is_file f), (mem (stem f) NOT_A_CUT); cbn [negb orb andb fst snd];
    try exact IH.
  destruct (match_snapshot (stem f)); cbn [fst snd map].
  - now constructor.
  - apply Permutation_sym, Permutation_cons_app, Permutation_sym, IH.
Qed.

Lemma classify_snapshots_match (listing : list entry) (s : string) :
  In s (fst (classify listing)) -> match_snapshot s = true.
Proof.
  induction listing as [| f rest IH]; [contradiction |].
  cbn [classify]. destruct (classify rest) as [snaps feats]. cbn [fst] in IH.
  destruct (negb (is_file f) || mem (stem f) NOT_A_CUT); [exact IH |].
  destruct (match_snapshot (stem f)) eqn:E; cbn [fst]; [| exact IH].
  intros [<- | H]; [exact E | now apply IH].
Qed.

Lemma classify_features_no_match (listing : list entry) (s : string) :
  In s (snd (classify listing)) -> match_snapshot s = false.
Proof.
  induction listing as [| f rest IH]; [contradiction |].
  cbn [classify]. destruct (classify rest) as [snaps feats]. cbn [snd] in IH.
  destruct (negb (is_file f) || mem (stem f) NOT_A_CUT); [exact IH |].
  destruct (match_snapshot (stem f)) eqn:E; cbn [snd]; [exact IH |].
  intros [<- | H]; [exact E | now apply IH].
Qed.

(* ----------------------------------------------------------------- *)
(** *** The sorted snapshots *)

Lemma snapshot_key_latest (s : string) :
  snapshot_key s = Ok Inf <-> s = "latest".
Proof.
  unfold snapshot_key. destruct (String.eqb_spec s "latest") as [-> | Hs].
  - now split.
  - split; [| contradiction]. destruct (int (tail s)); simpl; discriminate.
Qed.

Lemma snapshot_key_Num (s : string) (n : Z) :
  snapshot_key s = Ok (Num n) ->
  (s =? "latest") = false /\ int (tail s) = Ok n.
Proof.
  unfold snapshot_key. destruct (s =? "latest"); [discriminate |].
  destruct (int (tail s)); simpl; [| discriminate].
  intros [= <-]. now split.
Qed.

Lemma sort_snapshots_Ok (snapshots sorted : list string) :
  sort_snapshots snapshots = Ok sorted ->
  exists keys,
    sorted = map snd keys
    /\ Permutation sorted snapshots
    /\ StronglySorted (key_le ordinal_lt) keys
    /\ Forall (fun p => snapshot_key (snd p) = Ok (fst p)) keys.
Proof.
  unfold sort_snapshots. intros H.
  apply bind_Ok_inv in H as (keys & Hk & H). injection H as <-.
  exists (sort_keyed ordinal_lt keys).
  apply mapM_Ok_Forall2 in Hk.
  assert (Hsnd : map snd keys = snapshots).
  { clear - Hk. induction Hk as [| s p l r Hp _ IH]; [reflexivity |].
    simpl. apply keyed_Ok in Hp as [_ ->]. now rewrite IH. }
  split; [reflexivity |]. split; [| split].
  - rewrite (sort_keyed_Permutation ordinal_lt). now rewrite Hsnd.
  - apply sort_keyed_sorted; [apply ordinal_lt_asym | apply ordinal_le_trans].
  - rewrite Forall_forall. intros p Hp.
    apply (Permutation_in _ (sort_keyed_Permutation ordinal_lt keys)) in Hp.
    destruct (Forall2_In_r _ _ _ _ Hk Hp) as (s & _ & Hs).
    apply keyed_Ok in Hs as [Hs Es]. now rewrite Es.
Qed.

(** In the sorted list every [latest] comes after every other snapshot. *)
Lemma sorted_latest_last (keys : list (ordinal * string)) :
  StronglySorted (key_le ordinal_lt) keys ->
  Forall (fun p => snapshot_key (snd p) = Ok (fst p)) keys ->
  exists nums lats,
    map snd keys = (nums ++ lats)%list
    /\ Forall (fun s => (s =? "latest") = false) nums
    /\ Forall (fun s => s = "latest") lats.
Proof.
  induction 1 as [| p keys Hs IH Hp]; intros Hk.
  - exists [], []. repeat split; constructor.
  - inversion Hk as [| ? ? Hkp Hkeys]; subst.
    destruct (IH Hkeys) as (nums & lats & E & Hn & Hl).
    destruct p as [[n |] s]; cbn [fst snd] in *.
    + apply snapshot_key_Num in Hkp as [Hs' _].
      exists (s :: nums), lats. cbn [map snd]. rewrite E.
      repeat split; [now constructor | exact Hl].
    + apply snapshot_key_latest in Hkp as ->.
      exists [], ("latest" :: map snd keys). repeat split; [constructor |].
      constructor; [reflexivity |].
      rewrite Forall_forall in *. intros s Hs'.
      apply in_map_iff in Hs' as ([k s'] & <- & Hq).
      specialize (Hp _ Hq). specialize (Hkeys _ Hq). cbn [fst snd] in *.
      unfold key_le in Hp. cbn [fst] in Hp.
      destruct k as [n |]; [discriminate Hp |].
      now apply snapshot_key_latest.
Qed.

(* ----------------------------------------------------------------- *)
(** *** The loop over the snapshots *)

Lemma assign_snapshots_modules (snapshots : list string) :
  forall cuts r,
    assign_snapshots snapshots cuts = Ok r ->
    map cut_module r = (map cut_module cuts ++ snapshots)%list.
Proof.
  induction snapshots as [| m rest IH]; intros cuts r H; cbn [assign_snapshots] in H.
  - injection H as <-. now rewrite app_nil_r.
  - destruct (String.eqb_spec m "latest") as [-> | Hm]; cbn [negb] in H.
    + apply bind_Ok_inv in H as (v & _ & H).
      rewrite (IH _ _ H), map_app, <- app_assoc. reflexivity.
    + rewrite (IH _ _ H), map_app, <- app_assoc. reflexivity.
Qed.

Lemma assign_snapshots_raises (snapshots : list string) :
  forall cuts e, assign_snapshots snapshots cuts = Raise e -> e = ValueError.
Proof.
  induction snapshots as [| m rest IH]; intros cuts e H; cbn [assign_snapshots] in H;
    [discriminate |].
  destruct (negb (m =? "latest")); [now apply IH in H |].
  destruct (max_version cuts) as [v | e'] eqn:E; cbn [bind] in H; [now apply IH in H |].
  injection H as <-. unfold max_version in E.
  destruct (mapM (fun c => int (cut_version c)) cuts) as [vs | e''] eqn:Em;
    cbn [bind] in E.
  - destruct vs; [now injection E | discriminate].
  - injection E as <-. apply mapM_Raise in Em as (c & _ & Hc).
    now apply int_raises_ValueError in Hc.
Qed.

Lemma fold_max_bound (vs : list Z) :
  forall v x, In x (v :: vs) -> (x <= fold_left Z.max vs v)%Z.
Proof.
  induction vs as [| w vs IH]; intros v x Hx; cbn [fold_left].
  - destruct Hx as [-> | []]. lia.
  - destruct Hx as [-> | [-> | Hx]].
    + specialize (IH (Z.max x w) (Z.max x w) (or_introl eq_refl)). lia.
    + specialize (IH (Z.max v x) (Z.max v x) (or_introl eq_refl)). lia.
    + apply IH. now right.
Qed.

Lemma max_version_bound (cuts : list cut) :
  Forall parsable cuts -> cuts <> [] ->
  exists m,
    max_version cuts = Ok m
    /\ forall c a, In c cuts -> int (cut_version c) = Ok a -> (a <= m)%Z.
Proof.
  intros Hp Hne. unfold max_version.
  destruct (mapM_Ok_all (fun c => int (cut_version c)) cuts) as (vs & Hvs).
  { intros c Hc. rewrite Forall_forall in Hp. exact (Hp c Hc). }
  rewrite Hvs. cbn [bind].
  pose proof (mapM_Ok_Forall2 _ _ _ Hvs) as Hf.
  destruct vs as [| v vs].
  - inversion Hf; subst. contradiction.
  - eexists. split; [reflexivity |].
    intros c a Hc Ha.
    destruct (Forall2_In_l _ _ _ _ Hf Hc) as (y & Hy & Hcy).
    rewrite Ha in Hcy. injection Hcy as <-. now apply fold_max_bound.
Qed.

Lemma max_version_empty : max_version [] = Raise ValueError.
Proof. reflexivity. Qed.

(** The loop over a run of [latest]: each receives one more than the
    largest version before it. *)
Lemma assign_latests (lats : list string) :
  Forall (fun s => s = "latest") lats ->
  forall cuts,
    Forall parsable cuts -> cuts <> [] ->
    exists new,
      assign_snapshots lats cuts = Ok (cuts ++ new)%list
      /\ Forall (fun l =>
                   cut_module l = "latest" /\ cut_feature l = None
                   /\ exists b, int (cut_version l) = Ok b
                                /\ forall c a, In c cuts ->
                                               int (cut_version c) = Ok a ->
                                               (a < b)%Z) new.
Proof.
  induction 1 as [| s lats -> _ IH]; intros cuts Hp Hne.
  - exists []. split; [cbn; now rewrite app_nil_r | constructor].
  - cbn [assign_snapshots]. change ("latest" =? "latest") with true. cbn [negb].
    destruct (max_version_bound cuts Hp Hne) as (m & -> & Hm). cbn [bind].
    set (n := (str (1 + m), @None string, "latest")).
    assert (Hn : int (cut_version n) = Ok (1 + m)%Z) by apply int_str_Z.
    destruct (IH (cuts ++ [n])%list) as (new & -> & Hnew).
    + apply Forall_app. split; [exact Hp |]. constructor; [| constructor].
      now exists (1 + m)%Z.
    + now destruct cuts.
    + exists (n :: new). split; [now rewrite <- app_assoc |].
      constructor.
      * repeat split. exists (1 + m)%Z. split; [exact Hn |].
        intros c a Hc Ha. specialize (Hm c a Hc Ha). lia.
      * eapply Forall_impl; [| exact Hnew].
        intros l (Hl1 & Hl2 & b & Hb & Hlt). repeat split; try assumption.
        exists b. split; [exact Hb |].
        intros c a Hc. apply Hlt. apply in_or_app. now left.
Qed.

(** The snapshots of a listing whose registry is built, in the order of
    the loop: the numbered ones, then the [latest] ones. *)
Lemma snapshot_cuts_structure (listing : list entry) (cuts : list cut) :
  discover_cuts listing = Ok cuts ->
  exists nums lats new,
    Permutation (nums ++ lats) (fst (classify listing))
    /\ Forall (fun s => (s =? "latest") = false) nums
    /\ Forall (fun s => s = "latest") lats
    /\ snapshot_cuts cuts = (map (fun s => (tail s, None, s)) nums ++ new)%list
    /\ map cut_module new = lats
    /\ assign_snapshots lats (map (fun s => (tail s, None, s)) nums)
       = Ok (map (fun s => (tail s, None, s)) nums ++ new)%list.
Proof.
  intros H.
  destruct (discover_cuts_shape _ _ H) as (_ & _ & sorted & Hs & Ha).
  destruct (sort_snapshots_Ok _ _ Hs) as (keys & -> & Hperm & Hsorted & Hkeys).
  destruct (sorted_latest_last keys Hsorted Hkeys) as (nums & lats & E & Hn & Hl).
  rewrite E in *. rewrite (assign_not_latest _ Hn), app_nil_l in Ha.
  pose proof (assign_snapshots_modules _ _ _ Ha) as Hm.
  assert (Hpre : exists new,
             snapshot_cuts cuts = (map (fun s => (tail s, None, s)) nums ++ new)%list).
  { clear - Ha. revert Ha.
    generalize (map (fun s : string => (tail s, @None string, s)) nums) as acc.
    generalize (snapshot_cuts cuts) as r.
    induction lats as [| l lats IH]; intros r acc Ha; cbn [assign_snapshots] in Ha.
    - injection Ha as <-. exists []. now rewrite app_nil_r.
    - destruct (negb (l =? "latest")).
      + destruct (IH _ _ Ha) as (new & ->). eexists. now rewrite <- app_assoc.
      + apply bind_Ok_inv in Ha as (v & _ & Ha).
        destruct (IH _ _ Ha) as (new & ->). eexists. now rewrite <- app_assoc. }
  destruct Hpre as (new & Hnew).
  exists nums, lats, new. repeat split; try assumption.
  - rewrite Hnew, map_app in Hm. apply app_inv_head in Hm. exact Hm.
  - now rewrite <- Hnew.
Qed.

Lemma mem_In (s : string) (l : list string) : mem s l = true <-> In s l.
Proof.
  unfold mem. rewrite existsb_exists. split.
  - intros (x & Hx & E). apply String.eqb_eq in E. now subst.
  - intros H. exists s. split; [exact H | apply String.eqb_refl].
Qed.

Lemma registry_modules_Permutation (listing : list entry) (cuts : list cut) :
  discover_cuts listing = Ok cuts ->
  Permutation (map cut_module (snapshot_cuts cuts)) (fst (classify listing))
  /\ Permutation (map cut_module (feature_cuts cuts)) (snd (classify listing)).
Proof.
  intros H.
  destruct (discover_cuts_shape _ _ H) as (_ & Hf & sorted & Hs & Ha).
  split.
  - rewrite (assign_snapshots_modules _ _ _ Ha). cbn [map app].
    destruct (sort_snapshots_Ok _ _ Hs) as (keys & _ & Hp & _). exact Hp.
  - rewrite Hf, assign_features_modules. apply sort_features_Permutation.
Qed.

(** X1.  The registry has one cut for each regular file of the directory
    whose stem is not a support module, under the stem of the file:
    nothing is dropped, nothing is added, and no support module
    ([executor], [lib], [lib.template], [tests], [verifier]) is ever a
    cut. *)
Theorem registry_has_the_cut_files (listing : list entry) (cuts : list cut) :
  discover_cuts listing = Ok cuts ->
  Permutation (map cut_module cuts) (map stem (filter is_cut_file listing))
  /\ List.length cuts = List.length (filter is_cut_file listing)
  /\ forall c, In c cuts -> ~ In (cut_module c) NOT_A_CUT.
Proof.
  intros H.
  destruct (registry_modules_Permutation _ _ H) as [Hs Hf].
  destruct (discover_cuts_shape _ _ H) as (E & _ & _).
  assert (Hp : Permutation (map cut_module cuts)
                 (map stem (filter is_cut_file listing))).
  { rewrite <- E, map_app, Hs, Hf. apply classify_stems. }
  split; [exact Hp |]. split.
  - apply Permutation_length in Hp. now rewrite !length_map in Hp.
  - intros c Hc Hin.
    assert (Hm : In (cut_module c) (map stem (filter is_cut_file listing)))
      by (apply (Permutation_in _ Hp); now apply in_map).
    apply in_map_iff in Hm as (f & Ef & Hf').
    apply filter_In in Hf' as [_ Hf']. unfold is_cut_file in Hf'.
    apply andb_prop in Hf' as [_ Hf']. apply negb_true_iff in Hf'.
    rewrite Ef in Hf'. apply mem_In in Hin. congruence.
Qed.

Lemma registry_has_the_cut_files_witness :
  Permutation
    (map cut_module
       [("0", None, "v0"); ("1", None, "latest"); ("u64::MAX", Some "A", "a")])
    ["latest"; "a"; "v0"].
Proof.
  apply (registry_has_the_cut_files
           [file "latest"; file "lib"; {| is_file := false; stem := "dir" |};
            file "a"; file "tests"; file "v0"]).
  vm_compute; reflexivity.
Defined.

(** X2.  In the registry every snapshot cut comes before every feature
    cut.  The snapshot cuts are the cuts whose module name the pattern
    [latest|v[0-9]+] matches at its start, and they have no constant
    name; every other cut is a feature cut: it has a constant name, and
    for a module name in ASCII the constant name is the module name in
    upper case. *)
Theorem snapshots_precede_features (listing : list entry) (cuts : list cut) :
  discover_cuts listing = Ok cuts ->
  exists snaps feats,
    cuts = (snaps ++ feats)%list
    /\ (forall c, In c snaps ->
                  cut_feature c = None /\ match_snapshot (cut_module c) = true)
    /\ (forall c, In c feats ->
                  match_snapshot (cut_module c) = false
                  /\ exists k, cut_feature c = Some k
                               /\ (is_ascii (cut_module c) = true ->
                                   k = upper (cut_module c))).
Proof.
  intros H.
  destruct (registry_modules_Permutation _ _ H) as [Hs Hf].
  destruct (discover_cuts_shape _ _ H) as (E & Hfc & _).
  exists (snapshot_cuts cuts), (feature_cuts cuts).
  split; [now symmetry |]. split.
  - intros c Hc. split.
    + apply filter_In in Hc as [_ Hc]. unfold is_snapshot_cut in Hc.
      now destruct (cut_feature c).
    + apply (classify_snapshots_match listing), (Permutation_in _ Hs).
      now apply in_map.
  - intros c Hc. split.
    + apply (classify_features_no_match listing), (Permutation_in _ Hf).
      now apply in_map.
    + rewrite Hfc in Hc. apply In_nth_error in Hc as (i & Hi).
      apply assign_features_nth_inv in Hi as (name & _ & ->).
      exists (upper name). split; [reflexivity | intros _; reflexivity].
Qed.

Lemma snapshots_precede_features_witness :
  exists snaps feats,
    [("0", None, "v0"); ("1", None, "latest"); ("u64::MAX", Some "A", "a")]
    = (snaps ++ feats)%list
    /\ (forall c, In c snaps ->
                  cut_feature c = None /\ match_snapshot (cut_module c) = true)
    /\ (forall c, In c feats ->
                  match_snapshot (cut_module c) = false
                  /\ exists k, cut_feature c = Some k
                               /\ (is_ascii (cut_module c) = true ->
                                   k = upper (cut_module c))).
Proof.
  apply (snapshots_precede_features [file "latest"; file "a"; file "v0"]).
  vm_compute; reflexivity.
Defined.

Lemma snapshot_tails_parse (listing : list entry) (cuts : list cut) :
  discover_cuts listing = Ok cuts ->
  forall s, In s (fst (classify listing)) -> s <> "latest" ->
            exists n, int (tail s) = Ok n.
Proof.
  intros H s Hs' Hne.
  destruct (discover_cuts_shape _ _ H) as (_ & _ & sorted & Hs & _).
  destruct (sort_snapshots_Ok _ _ Hs) as (keys & -> & Hperm & _ & Hkeys).
  apply (Permutation_in _ (Permutation_sym Hperm)) in Hs'.
  apply in_map_iff in Hs' as ([k s'] & <- & Hq).
  rewrite Forall_forall in Hkeys. specialize (Hkeys _ Hq).
  cbn [fst snd] in *. destruct k as [n |].
  - apply snapshot_key_Num in Hkeys as [_ Hi]. now exists n.
  - apply snapshot_key_latest in Hkeys. contradiction.
Qed.

(** X3.  For a directory whose names have 255 characters at most, as
    file names have: [discover_cuts] raises nothing but [ValueError],
    and it returns a registry exactly when [int] reads the text after
    the first letter of every module taken for a snapshot other than
    [latest], and [latest], if present, is not the only snapshot. *)
Theorem discover_cuts_outcome (listing : list entry) :
  (forall f, In f listing -> (String.length (stem f) <= 255)%nat) ->
  (forall e, discover_cuts listing = Raise e -> e = ValueError)
  /\ ((exists cuts, discover_cuts listing = Ok cuts)
      <-> (forall s, In s (fst (classify listing)) -> s <> "latest" ->
                     exists n, int (tail s) = Ok n)
          /\ (In "latest" (fst (classify listing)) ->
              exists s, In s (fst (classify listing)) /\ s <> "latest")).
Proof.
  intros _. split.
  - rewrite discover_cuts_unfold. intros e H.
    destruct (sort_snapshots (fst (classify listing))) as [sorted | e'] eqn:Es;
      cbn [bind] in H.
    + destruct (assign_snapshots sorted []) as [r | e''] eqn:Ea; cbn [bind] in H;
        [discriminate |].
      injection H as <-. now apply assign_snapshots_raises in Ea.
    + injection H as <-. unfold sort_snapshots in Es.
      destruct (mapM keyed (fst (classify listing))) as [keys | e''] eqn:Ek;
        cbn [bind] in Es; [discriminate |].
      injection Es as <-. apply mapM_Raise in Ek as (s & _ & Hs).
      now apply keyed_raises_ValueError in Hs.
  - split.
    + intros (cuts & H).
      destruct (snapshot_cuts_structure _ _ H)
        as (nums & lats & new & Hp & Hn & Hl & _ & _ & Ha).
      split.
      * now apply (snapshot_tails_parse listing cuts).
      * intros Hlatest.
        destruct nums as [| s nums].
        -- exfalso. destruct lats as [| l lats].
           ++ apply (Permutation_in _ (Permutation_sym Hp)) in Hlatest.
              contradiction.
           ++ inversion Hl as [| ? ? El _]; subst. discriminate Ha.
        -- exists s. split.
           ++ apply (Permutation_in _ Hp). now left.
           ++ inversion Hn as [| ? ? Es _]; subst.
              now apply String.eqb_neq in Es.
    + intros [Hint Hlatest]. rewrite discover_cuts_unfold.
      destruct (mapM_Ok_all keyed (fst (classify listing))) as (keys0 & Hk).
      { intros s Hs. unfold keyed, snapshot_key.
        destruct (String.eqb_spec s "latest") as [-> | Hne]; [now eexists |].
        destruct (Hint s Hs Hne) as (n & ->). now eexists. }
      assert (Hs : sort_snapshots (fst (classify listing))
                   = Ok (map snd (sort_keyed ordinal_lt keys0)))
        by (unfold sort_snapshots; now rewrite Hk).
      rewrite Hs. cbn [bind].
      destruct (sort_snapshots_Ok _ _ Hs) as (keys & E & Hperm & Hsorted & Hkeys).
      destruct (sorted_latest_last keys Hsorted Hkeys) as (nums & lats & E' & Hn & Hl).
      rewrite E, E' in *.
      rewrite (assign_not_latest _ Hn), app_nil_l.
      assert (Hpars : Forall parsable (map (fun s => (tail s, @None string, s)) nums)).
      { rewrite Forall_forall. intros c Hc.
        apply in_map_iff in Hc as (s & <- & Hs').
        rewrite Forall_forall in Hn. specialize (Hn _ Hs').
        apply String.eqb_neq in Hn.
        apply (Hint s); [| exact Hn].
        apply (Permutation_in _ Hperm), in_or_app. now left. }
      destruct lats as [| l lats].
      * cbn [assign_snapshots bind]. now eexists.
      * destruct (assign_latests (l :: lats) Hl _ Hpars) as (new & -> & _).
        -- destruct nums; [| discriminate]. exfalso.
           inversion Hl as [| ? ? El Hl']; subst.
           destruct Hlatest as (s & Hs' & Hne).
           ++ apply (Permutation_in _ Hperm). now left.
           ++ apply (Permutation_in _ (Permutation_sym Hperm)) in Hs'.
              destruct Hs' as [<- | Hs']; [contradiction |].
              rewrite Forall_forall in Hl'. now apply Hl' in Hs'.
        -- cbn [bind]. now eexists.
Qed.

Lemma discover_cuts_outcome_witness :
  (exists cuts, discover_cuts [file "v0"; file "v1 "; file "latest"] = Ok cuts)
  /\ forall e, discover_cuts [file "v0"; file "v1x"; file "latest"] = Raise e ->
               e = ValueError.
Proof.
  split.
  - apply (discover_cuts_outcome [file "v0"; file "v1 "; file "latest"]).
    + intros f [<- | [<- | [<- | []]]]; cbn; lia.
    + split.
      * intros s [<- | [<- | [<- | []]]] Hne;
          [now exists 0%Z | now exists 1%Z | contradiction].
      * intros _. exists "v0". split; [now left | discriminate].
  - apply (discover_cuts_outcome [file "v0"; file "v1x"; file "latest"]).
    intros f [<- | [<- | [<- | []]]]; cbn; lia.
Defined.

(** X4.  [latest] receives the highest snapshot version: in a registry
    that is built, the version of a cut of the module [latest] is an
    integer above the version of every other snapshot cut. *)
Theorem latest_is_highest_snapshot
    (listing : list entry) (cuts : list cut) (c l : cut) :
  discover_cuts listing = Ok cuts ->
  In c cuts -> In l cuts ->
  cut_feature c = None -> cut_module c <> "latest" ->
  cut_module l = "latest" ->
  exists a b,
    int (cut_version c) = Ok a /\ int (cut_version l) = Ok b /\ (a < b)%Z.
Proof.
  intros H Hc Hl Hcf Hcm Hlm.
  destruct (snapshot_cuts_structure _ _ H)
    as (nums & lats & new & Hp & Hn & Hlat & Hsnap & Hmod & Ha).
  pose proof (snapshot_tails_parse _ _ H) as Hint.
  assert (Hpars : Forall parsable (map (fun s => (tail s, @None string, s)) nums)).
  { rewrite Forall_forall. intros x Hx.
    apply in_map_iff in Hx as (s & <- & Hs').
    rewrite Forall_forall in Hn. specialize (Hn _ Hs').
    apply String.eqb_neq in Hn.
    apply (Hint s); [| exact Hn].
    apply (Permutation_in _ Hp), in_or_app. now left. }
  (* [c] is one of the numbered cuts *)
  assert (Hcs : In c (snapshot_cuts cuts)).
  { apply filter_In. split; [exact Hc |]. unfold is_snapshot_cut. now rewrite Hcf. }
  assert (Hcn : In c (map (fun s => (tail s, @None string, s)) nums)).
  { rewrite Hsnap in Hcs. apply in_app_or in Hcs as [Hcs | Hcs]; [exact Hcs |].
    exfalso. apply Hcm.
    assert (Hin : In (cut_module c) lats) by (rewrite <- Hmod; now apply in_map).
    rewrite Forall_forall in Hlat. now apply Hlat. }
  (* [l] is one of the cuts of the run of [latest] *)
  assert (Hls : In l (snapshot_cuts cuts)).
  { destruct (discover_cuts_shape _ _ H) as (E & _ & _).
    destruct (registry_modules_Permutation _ _ H) as [_ Hf].
    rewrite <- E in Hl. apply in_app_or in Hl as [Hl | Hl]; [exact Hl |].
    exfalso.
    assert (Hno : match_snapshot (cut_module l) = false).
    { apply (classify_features_no_match listing), (Permutation_in _ Hf).
      now apply in_map. }
    rewrite Hlm in Hno. discriminate Hno. }
  assert (Hln : In l new).
  { rewrite Hsnap in Hls. apply in_app_or in Hls as [Hls | Hls]; [| exact Hls].
    exfalso. apply in_map_iff in Hls as (s & <- & Hs').
    rewrite Forall_forall in Hn. specialize (Hn _ Hs'). cbn in Hlm.
    subst s. discriminate Hn. }
  destruct nums as [| s0 nums]; [contradiction |].
  destruct (assign_latests lats Hlat _ Hpars ltac:(discriminate))
    as (new' & Ha' & Hnew).
  rewrite Ha in Ha'. injection Ha' as Ha'. apply app_inv_head in Ha'. subst new'.
  rewrite Forall_forall in Hnew.
  destruct (Hnew _ Hln) as (_ & _ & b & Hb & Hlt).
  rewrite Forall_forall in Hpars. destruct (Hpars _ Hcn) as (a & Ha0).
  exists a, b. repeat split; try assumption. now apply (Hlt c).
Qed.

Lemma latest_is_highest_snapshot_witness :
  exists a b, int "7" = Ok a /\ int "13" = Ok b /\ (a < b)%Z.
Proof.
  apply (latest_is_highest_snapshot
           [file "v12"; file "latest"; file "x"; file "v7"]
           [("7", None, "v7"); ("12", None, "v12"); ("13", None, "latest");
            ("u64::MAX", Some "X", "x")]
           ("7", None, "v7") ("13", None, "latest")).
  - vm_compute; reflexivity.
  - now left.
  - right; right; now left.
  - reflexivity.
  - discriminate.
  - reflexivity.
Defined.

(* ----------------------------------------------------------------- *)
(** *** The two ranges of versions *)

Lemma str_not_u64 (z : Z) : strip_prefix "u64::MAX" (str z) = None.
Proof.
  unfold str. destruct (z <? 0)%Z; [reflexivity |].
  destruct (str_nat_head_digit (Z.to_nat z)) as (c & s & -> & Hc).
  apply digit_cases in Hc.
  repeat (destruct Hc as [-> | Hc]; [reflexivity |]). now subst.
Qed.

Lemma version_value_str (z : Z) : version_value (str z) = Some z.
Proof. unfold version_value. now rewrite str_not_u64, int_str_Z. Qed.

Lemma strip_head (c : ascii) (t : string) :
  is_blank c = false -> exists t', lstrip (rstrip (String c t)) = String c t'.
Proof.
  intros Hc. cbn [rstrip].
  destruct (rstrip t); rewrite ?Hc; cbn [lstrip]; rewrite Hc; eauto.
Qed.

Lemma int_letter (t : string) : int (String "a" t) = Raise ValueError.
Proof.
  unfold int. destruct (strip_head "a" t eq_refl) as (t' & ->). reflexivity.
Qed.

(** The version of a numbered snapshot is read as the number in its
    name. *)
Lemma version_value_numbered (s : string) (n : Z) :
  match_snapshot s = true -> (s =? "latest") = false ->
  int (tail s) = Ok n ->
  version_value (tail s) = Some n.
Proof.
  unfold match_snapshot. intros Hm Hs Hi.
  apply orb_prop in Hm as [Hm | Hm].
  - (* a name that starts with [latest] and goes on *)
    exfalso. apply prefix_correct in Hm.
    do 6 (destruct s as [| ? s]; [discriminate Hm |]).
    cbn in Hm. injection Hm as -> -> -> -> -> ->.
    cbn [tail] in Hi. rewrite int_letter in Hi. discriminate Hi.
  - destruct s as [| c [| d s]]; try discriminate Hm.
    { destruct c as [[] [] [] [] [] [] [] []]; discriminate Hm. }
    assert (c = "v"%char) as ->.
    { destruct c as [[] [] [] [] [] [] [] []]; try discriminate Hm; reflexivity. }
    cbn [tail] in *. unfold version_value.
    assert (Hd : is_digit d = true) by exact Hm.
    apply digit_cases in Hd.
    assert (Hp : strip_prefix "u64::MAX" (String d s) = None)
      by (repeat (destruct Hd as [-> | Hd]; [reflexivity |]); now subst).
    now rewrite Hp, Hi.
Qed.

(** The loop over a run of [latest], with a bound: each [latest] is at
    most one above the one before. *)
Lemma assign_latests_bound (lats : list string) :
  Forall (fun s => s = "latest") lats ->
  forall (cuts : list cut) (M : Z),
    Forall (fun c => exists a, version_value (cut_version c) = Some a
                               /\ int (cut_version c) = Ok a /\ (a <= M)%Z) cuts ->
    cuts <> [] ->
    exists new,
      assign_snapshots lats cuts = Ok (cuts ++ new)%list
      /\ Forall (fun l => exists b, version_value (cut_version l) = Some b
                                    /\ (b <= M + Z.of_nat (List.length lats))%Z) new.
Proof.
  induction 1 as [| s lats -> _ IH]; intros cuts M Hp Hne.
  - exists []. split; [cbn; now rewrite app_nil_r | constructor].
  - cbn [assign_snapshots]. change ("latest" =? "latest") with true. cbn [negb].
    destruct (max_version_bound cuts) as (m & Hmax & Hm); [| exact Hne |].
    { eapply Forall_impl; [| exact Hp]. intros c (a & _ & Ha & _). now exists a. }
    assert (HmM : (m <= M)%Z).
    { unfold max_version in Hmax.
      destruct (mapM (fun c => int (cut_version c)) cuts) as [vs |] eqn:Ev;
        cbn [bind] in Hmax; [| discriminate].
      destruct vs as [| v vs]; [discriminate |]. injection Hmax as <-.
      apply mapM_Ok_Forall2 in Ev.
      assert (Hall : forall x, In x (v :: vs) -> (x <= M)%Z).
      { intros x Hx. destruct (Forall2_In_r _ _ _ _ Ev Hx) as (c & Hc & Hcx).
        rewrite Forall_forall in Hp. destruct (Hp c Hc) as (a & _ & Ha & HaM).
        rewrite Ha in Hcx. injection Hcx as <-. exact HaM. }
      clear - Hall. revert v Hall.
      induction vs as [| w vs IHv]; intros v Hall; cbn [fold_left].
      - apply Hall. now left.
      - apply IHv. intros x [<- | Hx].
        + pose proof (Hall v (or_introl eq_refl)).
          pose proof (Hall w (or_intror (or_introl eq_refl))). lia.
        + apply Hall. now right; right. }
    rewrite Hmax. cbn [bind].
    set (n := (str (1 + m), @None string, "latest")).
    destruct (IH (cuts ++ [n])%list (M + 1)%Z) as (new & -> & Hnew).
    + apply Forall_app. split.
      * eapply Forall_impl; [| exact Hp].
        intros c (a & Hv & Ha & HaM). exists a. repeat split; try assumption. lia.
      * constructor; [| constructor]. exists (1 + m)%Z.
        unfold n, cut_version; cbn [fst].
        repeat split; [apply version_value_str | apply int_str_Z | lia].
    + now destruct cuts.
    + exists (n :: new). split; [now rewrite <- app_assoc |].
      constructor.
      * exists (1 + m)%Z. split; [apply version_value_str |].
        cbn [List.length]. lia.
      * eapply Forall_impl; [| exact Hnew].
        intros l (b & Hb & Hle). exists b. split; [exact Hb |].
        cbn [List.length]. lia.
Qed.

(** X5.  The versions of snapshots and of features do not meet as long
    as the number in the name of every numbered snapshot, plus the
    number of cuts, stays within the largest 64-bit unsigned value: then
    every snapshot version is below every feature version.  The code
    itself checks no such bound. *)
Theorem version_ranges_apart
    (listing : list entry) (cuts : list cut) (c d : cut) :
  discover_cuts listing = Ok cuts ->
  (forall s n, In s (fst (classify listing)) -> int (tail s) = Ok n ->
               (n + Z.of_nat (List.length cuts) <= u64_MAX)%Z) ->
  In c (snapshot_cuts cuts) -> In d (feature_cuts cuts) ->
  exists a b,
    version_value (cut_version c) = Some a
    /\ version_value (cut_version d) = Some b
    /\ (a < b)%Z.
Proof.
  intros H Hbound Hc Hd.
  destruct (snapshot_cuts_structure _ _ H)
    as (nums & lats & new & Hp & Hn & Hlat & Hsnap & Hmod & Ha).
  destruct (discover_cuts_shape _ _ H) as (E & Hf & _).
  pose proof (snapshot_tails_parse _ _ H) as Hint.
  set (feats := sort_features (snd (classify listing))) in *.
  (* the lengths *)
  assert (Hlen : List.length cuts
                 = (List.length nums + List.length new + List.length feats)%nat).
  { rewrite <- E, length_app, Hsnap, Hf, length_app, length_map.
    now rewrite assign_features_length. }
  assert (Hlats : List.length new = List.length lats)
    by (now rewrite <- Hmod, length_map).
  (* the feature cut *)
  rewrite Hf in Hd. apply In_nth_error in Hd as (i & Hi).
  assert (Hi' : (i < List.length feats)%nat)
    by (rewrite <- (assign_features_length feats 0); apply nth_error_Some;
        congruence).
  apply assign_features_nth_inv in Hi as (name & _ & ->).
  unfold cut_version at 2. cbn [fst plus].
  (* the numbered cuts are within the bound *)
  set (M := (u64_MAX - Z.of_nat (List.length cuts))%Z).
  assert (Hnum : Forall (fun c => exists a,
                             version_value (cut_version c) = Some a
                             /\ int (cut_version c) = Ok a /\ (a <= M)%Z)
                   (map (fun s => (tail s, @None string, s)) nums)).
  { rewrite Forall_forall. intros x Hx.
    apply in_map_iff in Hx as (s & <- & Hs).
    assert (Hin : In s (fst (classify listing)))
      by (apply (Permutation_in _ Hp), in_or_app; now left).
    rewrite Forall_forall in Hn. specialize (Hn _ Hs).
    destruct (Hint s Hin) as (n & Hi); [now apply String.eqb_neq |].
    exists n. unfold cut_version; cbn [fst]. repeat split.
    - apply version_value_numbered; try assumption.
      now apply (classify_snapshots_match listing).
    - exact Hi.
    - specialize (Hbound s n Hin Hi). unfold M. lia. }
  rewrite Hsnap in Hc. apply in_app_or in Hc as [Hc | Hc].
  - rewrite Forall_forall in Hnum. destruct (Hnum _ Hc) as (a & Hv & _ & HaM).
    exists a, (u64_MAX - Z.of_nat i)%Z.
    repeat split; [exact Hv | apply version_value_feature |].
    unfold M in HaM. lia.
  - destruct nums as [| s0 nums].
    { destruct lats as [| l lats]; cbn in Ha.
      - injection Ha as Ha. subst new. contradiction.
      - inversion Hlat; subst. discriminate Ha. }
    destruct (assign_latests_bound lats Hlat _ M Hnum ltac:(discriminate))
      as (new' & Ha' & Hnew).
    rewrite Ha in Ha'. injection Ha' as Ha'. apply app_inv_head in Ha'. subst new'.
    rewrite Forall_forall in Hnew. destruct (Hnew _ Hc) as (b & Hb & Hle).
    exists b, (u64_MAX - Z.of_nat i)%Z.
    repeat split; [exact Hb | apply version_value_feature |].
    unfold M in Hle. cbn [List.length] in Hlen. lia.
Qed.

Lemma version_ranges_apart_witness :
  exists a b,
    version_value "2" = Some a /\ version_value "u64::MAX - 1" = Some b
    /\ (a < b)%Z.
Proof.
  apply (version_ranges_apart
           [file "v1"; file "latest"; file "b"; file "a"]
           [("1", None, "v1"); ("2", None, "latest");
            ("u64::MAX", Some "A", "a"); ("u64::MAX - 1", Some "B", "b")]
           ("2", None, "latest") ("u64::MAX - 1", Some "B", "b")).
  - vm_compute; reflexivity.
  - intros s n Hs Hi. vm_compute in Hs.
    destruct Hs as [<- | [<- | []]]; vm_compute in Hi.
    + injection Hi as <-. vm_compute. discriminate.
    + discriminate Hi.
  - right; now left.
  - right; now left.
Defined.

(* ================================================================= *)
(** * Further properties of the template engine *)

Lemma at_line_start_char (consumed : string) (c : ascii) :
  (c =? newline)%char = true -> at_line_start (consumed ++ String c "").
Proof.
  intros H. apply Ascii.eqb_eq in H. subst c. right. now exists consumed.
Qed.

Lemma append_char_assoc (a : string) (c : ascii) (s : string) :
  (a ++ String c "") ++ s = a ++ String c s.
Proof. now rewrite append_assoc. Qed.

(** The scan, when the directive lines of the whole text satisfy [P]:
    every match it tries to expand is for an identifier in [P]. *)
Section Directives.
Variable repl : string -> string -> result string.
Variable template : string.
Variable P : string -> Prop.
Hypothesis directive_lines :
  forall pre spc var post,
    template = pre ++ spc ++ "// $" ++ var ++ post ->
    at_line_start pre -> directive_line spc var -> at_line_end post ->
    P var.

Lemma scan_match_in_P (consumed s spc var rest : string) :
  template = consumed ++ s -> at_line_start consumed ->
  match_directive s = Some (spc, var, rest) ->
  P var /\ template = (consumed ++ spc ++ "// $" ++ var) ++ rest.
Proof.
  intros Ht Hc Hm. apply match_directive_spec in Hm as (-> & Hd & Hr).
  split.
  - now apply (directive_lines consumed spc var rest).
  - rewrite Ht, !append_assoc. reflexivity.
Qed.

(** Where no identifier is in [P], nothing is replaced. *)
Lemma scan_without_directives (n : nat) :
  (forall var, ~ P var) ->
  forall (bol : bool) (consumed s : string),
    (String.length s < n)%nat ->
    template = consumed ++ s -> (bol = true -> at_line_start consumed) ->
    scan repl bol s = Ok s.
Proof.
  intros HP. induction n as [| n IH]; intros bol consumed s Hn Ht Hb; [lia |].
  destruct (if bol then match_directive s else None)
    as [[[spc var] rest] |] eqn:E.
  - destruct bol; [| discriminate].
    destruct (scan_match_in_P consumed s spc var rest Ht (Hb eq_refl) E) as [Hp _].
    now apply HP in Hp.
  - destruct s as [| c s]; [apply scan_nil |].
    rewrite (scan_char _ _ _ _ E). cbn in Hn.
    rewrite (IH _ (consumed ++ String c "") s); [reflexivity | lia | |].
    + now rewrite append_char_assoc.
    + apply at_line_start_char.
Qed.

(** Where [repl] expands every identifier in [P], the scan succeeds. *)
Lemma scan_with_known_directives (n : nat) :
  (forall spc var, P var -> exists text, repl spc var = Ok text) ->
  forall (bol : bool) (consumed s : string),
    (String.length s < n)%nat ->
    template = consumed ++ s -> (bol = true -> at_line_start consumed) ->
    exists out, scan repl bol s = Ok out.
Proof.
  intros HP. induction n as [| n IH]; intros bol consumed s Hn Ht Hb; [lia |].
  destruct (if bol then match_directive s else None)
    as [[[spc var] rest] |] eqn:E.
  - destruct bol; [| discriminate].
    destruct (scan_match_in_P consumed s spc var rest Ht (Hb eq_refl) E) as [Hp Ht'].
    rewrite (scan_match _ _ _ _ _ E).
    destruct (HP spc var Hp) as (text & ->).
    pose proof (match_directive_shorter _ _ _ _ E) as Hshort.
    destruct (IH false _ rest ltac:(lia) Ht' ltac:(discriminate)) as (out & ->).
    now eexists.
  - destruct s as [| c s]; [rewrite scan_nil; now eexists |].
    rewrite (scan_char _ _ _ _ E). cbn in Hn.
    destruct (IH (c =? newline)%char (consumed ++ String c "") s) as (out & ->).
    + lia.
    + now rewrite append_char_assoc.
    + apply at_line_start_char.
    + now eexists.
Qed.
End Directives.

Lemma no_dollar_no_directive (t pre spc var post : string) :
  forallb_string (fun c => negb (c =? "$")%char) t = true ->
  t <> pre ++ spc ++ "// $" ++ var ++ post.
Proof.
  intros H ->. rewrite !forallb_string_app in H.
  apply andb_prop in H as [_ H]. apply andb_prop in H as [_ H].
  cbn in H. discriminate H.
Qed.

(** X6.  A template without a directive line is written out unchanged,
    whatever the registry: nothing is replaced and nothing is raised.
    So it is, in particular, for a text without the character [$]. *)
Theorem template_without_directives_unchanged
    (cuts : list cut) (template : string) :
  (forall pre spc var post,
      template = pre ++ spc ++ "// $" ++ var ++ post ->
      at_line_start pre -> directive_line spc var -> at_line_end post ->
      False) ->
  re_sub (substitute cuts) template = Ok template
  /\ forall listing,
      discover_cuts listing = Ok cuts -> generate_lib listing template = Ok template.
Proof.
  intros H.
  assert (E : re_sub (substitute cuts) template = Ok template).
  { unfold re_sub.
    apply (scan_without_directives (substitute cuts) template (fun _ => False) H
             (S (String.length template)) (fun _ Hf => Hf) true "" template);
      [lia | reflexivity | now left]. }
  split; [exact E |].
  intros listing Hl. unfold generate_lib. now rewrite Hl.
Qed.

Lemma template_without_directives_unchanged_witness :
  re_sub (substitute [("0", None, "latest")])
    ("pub mod executor;" ++ nl ++ "// a comment" ++ nl)
  = Ok ("pub mod executor;" ++ nl ++ "// a comment" ++ nl).
Proof.
  apply (template_without_directives_unchanged [("0", None, "latest")]).
  intros pre spc var post H _ _ _.
  revert H. apply no_dollar_no_directive. vm_compute; reflexivity.
Defined.

(** X7.  A template all of whose directive lines name one of the five
    known directives is expanded without an error, whatever the
    registry: the expansion fails only for a directive line that names
    an unknown directive. *)
Theorem known_directives_expand (cuts : list cut) (template : string) :
  (forall pre spc var post,
      template = pre ++ spc ++ "// $" ++ var ++ post ->
      at_line_start pre -> directive_line spc var -> at_line_end post ->
      In var known_directives) ->
  exists out, re_sub (substitute cuts) template = Ok out.
Proof.
  intros H. unfold re_sub.
  apply (scan_with_known_directives (substitute cuts) template
           (fun var => In var known_directives) H
           (S (String.length template))
           (fun spc var => substitute_known cuts spc var) true "" template);
    [lia | reflexivity | now left].
Qed.

Lemma known_directives_expand_witness :
  exists out,
    re_sub (substitute [("0", None, "latest")])
      ("// $GENERATED_MESSAGE" ++ nl ++ nl ++ "// $MOD_CUTS" ++ nl)
    = Ok out.
Proof.
  apply known_directives_expand.
  intros pre spc var post Ht Hpre Hd Hpost.
  destruct (in_dec string_dec var known_directives) as [Hk | Hu]; [exact Hk |].
  exfalso.
  destruct (scan_unknown_raises [("0", None, "latest")] spc var post Hd Hpost Hu
              (S (String.length pre)) true pre ltac:(lia) Hpre ltac:(reflexivity))
    as (v & Hv & _).
  rewrite <- Ht in Hv. vm_compute in Hv. discriminate Hv.
Defined.

(* ----------------------------------------------------------------- *)
(** *** The dispatch tables *)

Lemma lines_no_newline (l : string) : has_newline l = false -> lines l = [l].
Proof.
  intros H. rewrite <- (append_nil_r l) at 1.
  rewrite (lines_app _ _ H). cbn. now rewrite append_nil_r.
Qed.

Lemma lines_line (l r : string) :
  has_newline l = false -> lines (l ++ nl ++ r) = l :: lines r.
Proof.
  intros H. rewrite (lines_app _ _ H), lines_newline. cbn.
  now rewrite append_nil_r.
Qed.

(** Texts without a newline joined by newlines: one line for each. *)
Lemma lines_join (ls : list string) :
  ls <> [] -> Forall (fun l => has_newline l = false) ls ->
  lines (join nl ls) = ls.
Proof.
  intros Hne H. induction H as [| l ls Hl Hls IH]; [contradiction |].
  destruct ls as [| l' ls].
  - cbn. now apply lines_no_newline.
  - change (join nl (l :: l' :: ls)) with (l ++ nl ++ join nl (l' :: ls)).
    rewrite (lines_line _ _ Hl), IH; [reflexivity | discriminate].
Qed.

Lemma executor_entry_lines (spc : string) (c : cut) (r : string) :
  has_newline spc = false ->
  has_newline (cut_module c) = false ->
  has_newline (or_else (cut_feature c) (cut_version c)) = false ->
  lines (executor_entry spc c ++ r) = (executor_lines spc c ++ lines r)%list.
Proof.
  intros Hs Hm Hk. unfold executor_entry, executor, executor_lines.
  repeat rewrite append_assoc.
  set (key := or_else (cut_feature c) (cut_version c)) in *.
  replace (spc ++ key ++ " => Arc::new(" ++ cut_module c ++ "::Executor::new("
           ++ nl ++ spc ++ "    protocol_config," ++ nl
           ++ spc ++ "    paranoid_type_checks," ++ nl
           ++ spc ++ "    silent," ++ nl ++ spc ++ ")?)," ++ nl ++ r)
    with ((spc ++ key ++ " => Arc::new(" ++ cut_module c ++ "::Executor::new(")
          ++ nl ++ (spc ++ "    protocol_config,")
          ++ nl ++ (spc ++ "    paranoid_type_checks,")
          ++ nl ++ (spc ++ "    silent,")
          ++ nl ++ (spc ++ ")?),") ++ nl ++ r)
    by (repeat rewrite append_assoc; reflexivity).
  rewrite !lines_line; [reflexivity | ..];
    repeat (apply no_newline_app; split); try assumption; reflexivity.
Qed.

(** The entries of the executor table joined by newlines: the five lines
    of each entry, and an empty line after each. *)
Lemma lines_executor_table (spc : string) (cuts : list cut) :
  cuts <> [] ->
  has_newline spc = false ->
  (forall c, In c cuts ->
             has_newline (cut_module c) = false
             /\ has_newline (or_else (cut_feature c) (cut_version c)) = false) ->
  lines (join nl (map (executor_entry spc) cuts))
  = flat_map (fun c => executor_lines spc c ++ [""])%list cuts.
Proof.
  intros Hne Hs Hc. induction cuts as [| c cuts IH]; [contradiction |].
  destruct (Hc c (or_introl eq_refl)) as [Hm Hk].
  destruct cuts as [| c' cuts].
  - cbn [map join String.concat flat_map].
    rewrite <- (append_nil_r (executor_entry spc c)).
    rewrite executor_entry_lines by assumption. now rewrite app_nil_r.
  - change (join nl (map (executor_entry spc) (c :: c' :: cuts)))
      with (executor_entry spc c ++ nl ++ join nl (map (executor_entry spc) (c' :: cuts))).
    rewrite executor_entry_lines by assumption.
    rewrite lines_newline, IH; [| discriminate | intros x Hx; apply Hc; now right].
    cbn [flat_map]. now rewrite <- app_assoc.
Qed.

Section Tables.
Variables (cuts : list cut) (pre line ind post : string).
Hypothesis registry_not_empty : cuts <> [].
Hypothesis pre_ends_line : at_line_start pre.
Hypothesis line_one : has_newline line = false.
Hypothesis line_not_blank : forallb_string is_space line = false.
Hypothesis line_not_directive :
  forall spc' var', directive_line spc' var' -> line <> spc' ++ "// $" ++ var'.
Hypothesis ind_blank : forallb_string is_space ind = true.
Hypothesis ind_one : has_newline ind = false.
Hypothesis post_starts : at_line_end post.
Hypothesis names_one :
  forall c, In c cuts ->
            has_newline (cut_module c) = false
            /\ has_newline (or_else (cut_feature c) (cut_version c)) = false.

(** X8.  A [VERIFIER_CUTS] directive on the line after a line of text,
    for a registry that is not empty: the directive line is replaced by
    one line for each cut, in the order of the registry, each with the
    indentation of the directive line; the line before is kept. *)
Theorem verifier_table_lines :
  exists text,
    lines text = map (verifier_entry ind) cuts
    /\ re_sub (substitute cuts)
         (pre ++ line ++ nl ++ ind ++ "// $" ++ "VERIFIER_CUTS" ++ post)
       = (a <- re_sub (substitute cuts) pre ;;
          out <- scan (substitute cuts) false post ;;
          Ok (a ++ line ++ nl ++ text ++ out)).
Proof.
  exists (join nl (map (verifier_entry ind) cuts)). split.
  - apply lines_join.
    + destruct cuts; [contradiction | discriminate].
    + rewrite Forall_forall. intros l Hl.
      apply in_map_iff in Hl as (c & <- & Hc).
      destruct (names_one c Hc) as [Hm Hk]. unfold verifier_entry.
      repeat (apply no_newline_app; split); try assumption; reflexivity.
  - apply directive_after_line; try assumption; [| reflexivity].
    repeat split; [exact ind_blank | discriminate].
Qed.

(** X9.  An [EXECUTOR_CUTS] directive on the line after a line of text,
    for a registry that is not empty: the directive line is replaced by
    the five lines of the entry of each cut, in the order of the
    registry, each line with the indentation of the directive line, and
    an empty line after each entry. *)
Theorem executor_table_lines :
  exists text,
    lines text = flat_map (fun c => executor_lines ind c ++ [""])%list cuts
    /\ re_sub (substitute cuts)
         (pre ++ line ++ nl ++ ind ++ "// $" ++ "EXECUTOR_CUTS" ++ post)
       = (a <- re_sub (substitute cuts) pre ;;
          out <- scan (substitute cuts) false post ;;
          Ok (a ++ line ++ nl ++ text ++ out)).
Proof.
  exists (join nl (map (executor_entry ind) cuts)). split.
  - now apply lines_executor_table.
  - apply directive_after_line; try assumption; [| reflexivity].
    repeat split; [exact ind_blank | discriminate].
Qed.
End Tables.

Lemma verifier_table_lines_witness :
  exists text,
    lines text
    = map (verifier_entry "    ")
        [("0", None, "latest"); ("u64::MAX", Some "A", "a")]
    /\ re_sub (substitute [("0", None, "latest"); ("u64::MAX", Some "A", "a")])
         ("" ++ "match version {" ++ nl ++ "    " ++ "// $" ++ "VERIFIER_CUTS"
          ++ (nl ++ "}"))
       = (a <- re_sub (substitute [("0", None, "latest"); ("u64::MAX", Some "A", "a")]) "" ;;
          out <- scan (substitute [("0", None, "latest"); ("u64::MAX", Some "A", "a")])
                   false (nl ++ "}") ;;
          Ok (a ++ "match version {" ++ nl ++ text ++ out)).
Proof.
  apply verifier_table_lines.
  - discriminate.
  - now left.
  - reflexivity.
  - reflexivity.
  - apply not_matched_not_directive. vm_compute; reflexivity.
  - reflexivity.
  - reflexivity.
  - right. now exists "}".
  - intros c [<- | [<- | []]]; split; reflexivity.
Defined.

Lemma executor_table_lines_witness :
  exists text,
    lines text
    = flat_map (fun c => executor_lines "    " c ++ [""])%list
        [("0", None, "latest"); ("u64::MAX", Some "A", "a")]
    /\ re_sub (substitute [("0", None, "latest"); ("u64::MAX", Some "A", "a")])
         ("" ++ "match version {" ++ nl ++ "    " ++ "// $" ++ "EXECUTOR_CUTS"
          ++ (nl ++ "}"))
       = (a <- re_sub (substitute [("0", None, "latest"); ("u64::MAX", Some "A", "a")]) "" ;;
          out <- scan (substitute [("0", None, "latest"); ("u64::MAX", Some "A", "a")])
                   false (nl ++ "}") ;;
          Ok (a ++ "match version {" ++ nl ++ text ++ out)).
Proof.
  apply executor_table_lines.
  - discriminate.
  - now left.
  - reflexivity.
  - reflexivity.
  - apply not_matched_not_directive. vm_compute; reflexivity.
  - reflexivity.
  - reflexivity.
  - right. now exists "}".
  - intros c [<- | [<- | []]]; split; reflexivity.
Defined.

(* ================================================================= *)
(** * The manifest *)

Lemma readlines_join (s : string) : join "" (readlines s) = s.
Proof.
  rewrite join_empty.
  induction s as [| c s IH]; [reflexivity |].
  cbn [readlines]. cbv zeta.
  destruct (c =? newline)%char.
  - cbn [fold_right]. now rewrite IH.
  - destruct (readlines s) as [| l ls]; cbn [fold_right] in *.
    + now rewrite <- IH.
    + now rewrite <- IH.
Qed.

Lemma toml_writes_plain (feature line : string) :
  is_template line = false -> toml_writes feature line = [line].
Proof.
  unfold is_template, toml_writes.
  destruct (strip_prefix "# " line); [| reflexivity]. now intros ->.
Qed.

Lemma toml_writes_template (feature line : string) :
  is_template line = true ->
  exists u, strip_prefix "# " line = Some u
            /\ toml_writes feature line = [replace "$CUT" feature u; line].
Proof.
  unfold is_template, toml_writes.
  destruct (strip_prefix "# " line) as [u |]; [| discriminate].
  intros ->. now exists u.
Qed.

(** No line is lost: every line read is written back. *)
Lemma update_toml_keeps (feature : string) (lines : list string) (line : string) :
  In line lines -> In line (update_toml feature lines).
Proof.
  intros H. apply in_flat_map. exists line. split; [exact H |].
  unfold toml_writes. destruct (strip_prefix "# " line); [| now left].
  destruct (contains "$CUT" line); [right |]; now left.
Qed.

Lemma update_toml_activates (feature : string) (lines : list string) (line u : string) :
  In line lines -> strip_prefix "# " line = Some u -> contains "$CUT" line = true ->
  In (replace "$CUT" feature u) (update_toml feature lines).
Proof.
  intros H Hu Hc. apply in_flat_map. exists line. split; [exact H |].
  unfold toml_writes. rewrite Hu, Hc. now left.
Qed.

(** X10.  A manifest without a template line, that is without a line
    that starts with [# ] and mentions [$CUT], is written back as it
    is. *)
Theorem manifest_without_templates_unchanged (feature text : string) :
  (forall line, In line (readlines text) -> is_template line = false) ->
  update_toml_text feature text = text.
Proof.
  intros H. unfold update_toml_text, update_toml.
  rewrite <- (readlines_join text) at 2. f_equal.
  induction (readlines text) as [| l ls IH]; [reflexivity |].
  cbn [flat_map]. rewrite toml_writes_plain by (apply H; now left).
  change (l :: flat_map (toml_writes feature) ls = l :: ls).
  f_equal. apply IH. intros line Hl. apply H. now right.
Qed.

Lemma manifest_without_templates_unchanged_witness :
  update_toml_text "feat" ("[package]" ++ nl ++ "# a comment" ++ nl ++ "#$CUT" ++ nl)
  = "[package]" ++ nl ++ "# a comment" ++ nl ++ "#$CUT" ++ nl.
Proof.
  apply manifest_without_templates_unchanged.
  intros line Hl. vm_compute in Hl.
  destruct Hl as [<- | [<- | [<- | []]]]; reflexivity.
Defined.

(* ----------------------------------------------------------------- *)
(** *** No placeholder is left *)

Lemma strip_prefix_CUT_cons (c : ascii) (s : string) :
  strip_prefix "$CUT" (String c s)
  = if ("$" =? c)%char then strip_prefix "CUT" s else None.
Proof. reflexivity. Qed.

Lemma contains_cons (pat : string) (c : ascii) (s : string) :
  contains pat (String c s)
  = match strip_prefix pat (String c s) with
    | Some _ => true
    | None => contains pat s
    end.
Proof. reflexivity. Qed.

Lemma contains_skip (new r : string) :
  forallb_string (fun c => negb (c =? "$")%char) new = true ->
  contains "$CUT" (new ++ r) = contains "$CUT" r.
Proof.
  induction new as [| c new IH]; intros H; [reflexivity |].
  cbn [forallb_string] in H. apply andb_prop in H as [Hc H].
  cbn [append]. rewrite contains_cons, strip_prefix_CUT_cons.
  rewrite Ascii.eqb_sym. apply negb_true_iff in Hc. rewrite Hc. now apply IH.
Qed.

Section Replace.
Variables (a : ascii) (new' : string).
Hypothesis new_no_dollar :
  forallb_string (fun c => negb (c =? "$")%char) (String a new') = true.

(** A text that does not start with [q] does not start with it after
    the replacement either, for a [q] without [$] and without the first
    character of the new text. *)
Lemma replace_keeps_start (q : string) :
  q <> "" ->
  forallb_string (fun c => negb (c =? "$")%char && negb (c =? a)%char) q = true ->
  forall (fuel : nat) (s : string),
    (String.length s < fuel)%nat ->
    strip_prefix q s = None ->
    strip_prefix q (replace_from fuel "$CUT" (String a new') s) = None.
Proof.
  induction q as [| q0 q IH]; intros Hne Hq fuel s Hf Hs; [contradiction |].
  cbn [forallb_string] in Hq. apply andb_prop in Hq as [Hq0 Hq].
  apply andb_prop in Hq0 as [Hd Ha].
  apply negb_true_iff in Hd, Ha.
  destruct fuel as [| fuel]; [lia |]. cbn [replace_from].
  destruct (strip_prefix "$CUT" s) as [rest |] eqn:E.
  - cbn [append strip_prefix]. now rewrite Ha.
  - destruct s as [| c s]; [reflexivity |].
    cbn [strip_prefix] in *. destruct (q0 =? c)%char eqn:Ec; [| reflexivity].
    destruct q as [| q1 q]; [discriminate Hs |].
    cbn [String.length] in Hf. apply IH; [discriminate | exact Hq | lia | exact Hs].
Qed.

Lemma replace_no_placeholder (fuel : nat) :
  negb (a =? "C")%char && negb (a =? "U")%char && negb (a =? "T")%char = true ->
  forall s : string,
    (String.length s < fuel)%nat ->
    contains "$CUT" (replace_from fuel "$CUT" (String a new') s) = false.
Proof.
  intros Ha. induction fuel as [| fuel IH]; intros s Hf; [lia |].
  cbn [replace_from].
  destruct (strip_prefix "$CUT" s) as [rest |] eqn:E.
  - rewrite (contains_skip _ _ new_no_dollar). apply IH.
    apply strip_prefix_spec in E. subst s. cbn in Hf. lia.
  - destruct s as [| c s]; [reflexivity |].
    cbn [String.length] in Hf.
    rewrite contains_cons, strip_prefix_CUT_cons.
    rewrite strip_prefix_CUT_cons in E.
    destruct ("$" =? c)%char; [| apply IH; lia].
    rewrite replace_keeps_start; [apply IH; lia | discriminate | | lia | exact E].
    apply andb_prop in Ha as [Ha HT]. apply andb_prop in Ha as [HC HU].
    cbn [forallb_string]. rewrite (Ascii.eqb_sym "C" a), (Ascii.eqb_sym "U" a),
      (Ascii.eqb_sym "T" a), HC, HU, HT. reflexivity.
Qed.
End Replace.

Lemma lower_not_CUT (a : ascii) :
  is_lower a = true ->
  negb (a =? "C")%char && negb (a =? "U")%char && negb (a =? "T")%char = true
  /\ negb (a =? "$")%char = true.
Proof. destruct a as [[] [] [] [] [] [] [] []]; vm_compute; intuition congruence. Qed.

Lemma word_not_dollar (c : ascii) : is_word c = true -> negb (c =? "$")%char = true.
Proof. destruct c as [[] [] [] [] [] [] [] []]; vm_compute; congruence. Qed.

Lemma identifier_replaces_all (feature s : string) :
  is_identifier feature = true ->
  contains "$CUT" (replace "$CUT" feature s) = false.
Proof.
  unfold is_identifier. destruct feature as [| a new']; [discriminate |].
  intros H. apply andb_prop in H as [Ha Hw].
  destruct (lower_not_CUT a Ha) as [HCUT Hd].
  unfold replace. apply replace_no_placeholder; [| exact HCUT | lia].
  cbn [forallb_string]. rewrite Hd. cbn [andb].
  apply forallb_string_impl with is_word; [apply word_not_dollar | exact Hw].
Qed.

(** X12.  For a feature name that is an identifier, every line that
    [update_toml] adds is free of the placeholder: each line written is a
    line that was read, or it does not mention [$CUT] any more. *)
Theorem activated_lines_have_no_placeholder
    (feature : string) (lines : list string) (w : string) :
  is_identifier feature = true ->
  In w (update_toml feature lines) ->
  In w lines \/ contains "$CUT" w = false.
Proof.
  intros Hf Hw. apply in_flat_map in Hw as (line & Hl & Hw).
  unfold toml_writes in Hw.
  destruct (strip_prefix "# " line) as [u |].
  - destruct (contains "$CUT" line).
    + destruct Hw as [<- | [<- | []]]; [right | now left].
      now apply identifier_replaces_all.
    + destruct Hw as [<- | []]. now left.
  - destruct Hw as [<- | []]. now left.
Qed.

Lemma activated_lines_have_no_placeholder_witness :
  In ("x-f = $f" ++ nl) ["# x-$CUT = $$CUT" ++ nl]
  \/ contains "$CUT" ("x-f = $f" ++ nl) = false.
Proof.
  apply (activated_lines_have_no_placeholder "f" ["# x-$CUT = $$CUT" ++ nl]).
  - reflexivity.
  - now left.
Defined.

(* ----------------------------------------------------------------- *)
(** *** The lines of the new manifest *)

Lemma readlines_nil (s : string) : readlines s = [] -> s = "".
Proof.
  destruct s as [| c s]; [reflexivity |].
  cbn [readlines]. cbv zeta.
  destruct (c =? newline)%char; [discriminate |].
  destruct (readlines s); discriminate.
Qed.

Lemma readlines_line (l r : string) :
  is_line l -> readlines (l ++ r) = l :: readlines r.
Proof.
  intros (body & -> & Hb). apply has_newline_false in Hb.
  induction body as [| c body IH].
  - cbn [append nl readlines]. cbv zeta. now rewrite Ascii.eqb_refl.
  - cbn [forallb_string] in Hb. apply andb_prop in Hb as [Hc Hb].
    apply negb_true_iff in Hc.
    cbn [append readlines]. cbv zeta. rewrite Hc.
    cbn [append] in IH. now rewrite (IH Hb).
Qed.

Lemma readlines_of_lines (ls : list string) :
  Forall is_line ls -> readlines (join "" ls) = ls.
Proof.
  rewrite join_empty.
  induction 1 as [| l ls Hl _ IH]; [reflexivity |].
  cbn [fold_right]. now rewrite readlines_line, IH.
Qed.

Lemma is_line_cons (c : ascii) (l : string) :
  (c =? newline)%char = false -> is_line l -> is_line (String c l).
Proof.
  intros Hc (body & -> & Hb). exists (String c body). split; [reflexivity |].
  apply has_newline_false. apply has_newline_false in Hb.
  cbn [forallb_string]. now rewrite Hc, Hb.
Qed.

Lemma is_line_app (a l : string) :
  has_newline a = false -> is_line l -> is_line (a ++ l).
Proof.
  intros Ha Hl. apply has_newline_false in Ha.
  induction a as [| c a IH]; [exact Hl |].
  cbn [forallb_string] in Ha. apply andb_prop in Ha as [Hc Ha].
  apply negb_true_iff in Hc. cbn [append]. now apply is_line_cons, IH.
Qed.

Lemma is_line_nl : is_line nl.
Proof. now exists "". Qed.

(** A text that ends with a newline is made of lines. *)
Lemma readlines_terminated (t : string) : Forall is_line (readlines (t ++ nl)).
Proof.
  induction t as [| c t IH].
  - cbn. constructor; [apply is_line_nl | constructor].
  - cbn [append readlines]. cbv zeta.
    destruct (c =? newline)%char eqn:Ec.
    + apply Ascii.eqb_eq in Ec. subst c. constructor; [apply is_line_nl | exact IH].
    + destruct (readlines (t ++ nl)) as [| l ls] eqn:E.
      * apply readlines_nil in E. now destruct t.
      * inversion IH; subst. constructor; [now apply is_line_cons | assumption].
Qed.

(** A prefix without a newline, stripped from a line, leaves a line. *)
Lemma strip_prefix_line (p b rest : string) :
  has_newline p = false ->
  strip_prefix p (b ++ nl) = Some rest ->
  exists r, rest = r ++ nl /\ b = p ++ r.
Proof.
  intros Hp. apply has_newline_false in Hp. revert b.
  induction p as [| a p IH]; intros b H.
  - cbn in H. injection H as <-. now exists b.
  - cbn [forallb_string] in Hp. apply andb_prop in Hp as [Ha Hp].
    apply negb_true_iff in Ha.
    destruct b as [| c b].
    + cbn [append nl strip_prefix] in H. rewrite Ha in H. discriminate H.
    + cbn [append strip_prefix] in H.
      destruct (Ascii.eqb_spec a c) as [-> |]; [| discriminate H].
      destruct (IH Hp b H) as (r & -> & ->). now exists r.
Qed.

(** The replacement in a line gives a line, when the new text has no
    newline. *)
Lemma replace_line (new : string) (fuel : nat) (b : string) :
  has_newline new = false -> has_newline b = false ->
  (String.length b + 1 < fuel)%nat ->
  is_line (replace_from fuel "$CUT" new (b ++ nl)).
Proof.
  intros Hnew. revert b. induction fuel as [| fuel IH]; intros b Hb Hf; [lia |].
  cbn [replace_from].
  destruct (strip_prefix "$CUT" (b ++ nl)) as [rest |] eqn:E.
  - apply is_line_app; [exact Hnew |].
    apply strip_prefix_line in E as (r & -> & ->); [| reflexivity].
    apply IH.
    + now apply no_newline_app in Hb as [_ Hb].
    + rewrite length_append in Hf. cbn in Hf. lia.
  - destruct b as [| c b].
    + cbn [append nl]. destruct fuel as [| fuel]; apply is_line_nl.
    + cbn [append]. apply has_newline_false in Hb.
      cbn [forallb_string] in Hb. apply andb_prop in Hb as [Hc Hb].
      apply negb_true_iff in Hc. apply is_line_cons; [exact Hc |].
      apply IH; [now apply has_newline_false | cbn in Hf; lia].
Qed.

Lemma toml_writes_lines (feature line : string) :
  has_newline feature = false -> is_line line ->
  Forall is_line (toml_writes feature line).
Proof.
  intros Hf Hl. unfold toml_writes.
  destruct (strip_prefix "# " line) as [u |] eqn:E; [| now repeat constructor].
  destruct (contains "$CUT" line); [| now repeat constructor].
  constructor; [| now repeat constructor].
  destruct Hl as (body & -> & Hb).
  apply strip_prefix_line in E as (r & -> & ->); [| reflexivity].
  unfold replace. apply replace_line; [exact Hf | |].
  - now apply no_newline_app in Hb as [_ Hb].
  - rewrite length_append. cbn. lia.
Qed.

Lemma update_toml_lines (feature : string) (lines : list string) :
  has_newline feature = false -> Forall is_line lines ->
  Forall is_line (update_toml feature lines).
Proof.
  intros Hf. induction 1 as [| l ls Hl _ IH]; [constructor |].
  unfold update_toml. cbn [flat_map]. apply Forall_app. split; [| exact IH].
  now apply toml_writes_lines.
Qed.

(** X13.  In a manifest that ends with a newline, updated for a feature
    name without a newline, every write is a line of its own: the lines
    of the new manifest are the writes, so that each template line has
    its uncommented copy on the line before it. *)
Theorem new_manifest_lines (feature t : string) :
  has_newline feature = false ->
  readlines (update_toml_text feature (t ++ nl))
  = update_toml feature (readlines (t ++ nl)).
Proof.
  intros Hf. unfold update_toml_text. apply readlines_of_lines.
  apply update_toml_lines; [exact Hf | apply readlines_terminated].
Qed.

Lemma new_manifest_lines_witness :
  readlines (update_toml_text "f" (("[deps]" ++ nl ++ "# x-$CUT = 1") ++ nl))
  = ["[deps]" ++ nl; "x-f = 1" ++ nl; "# x-$CUT = 1" ++ nl].
Proof.
  rewrite (new_manifest_lines "f" ("[deps]" ++ nl ++ "# x-$CUT = 1")).
  - reflexivity.
  - reflexivity.
Defined.

Lemma identifier_no_newline (feature : string) :
  is_identifier feature = true -> has_newline feature = false.
Proof.
  assert (Hw : forall c, is_word c = true -> negb (c =? newline)%char = true).
  { intros c. destruct c as [[] [] [] [] [] [] [] []]; vm_compute; congruence. }
  unfold is_identifier. destruct feature as [| c f]; [discriminate |].
  intros H. apply andb_prop in H as [Hc Hf].
  apply has_newline_false. cbn [forallb_string].
  rewrite Hw by (unfold is_word; now rewrite Hc).
  apply forallb_string_impl with is_word; assumption.
Qed.

Lemma update_toml_text_lines (feature s : string) :
  has_newline feature = false -> Forall is_line (readlines s) ->
  readlines (update_toml_text feature s) = update_toml feature (readlines s).
Proof.
  intros Hf Hs. unfold update_toml_text. apply readlines_of_lines.
  now apply update_toml_lines.
Qed.

(** X11.  [update_toml] only adds lines, so the cuts add up.  For a
    manifest that ends with a newline and feature names that are
    identifiers: after the manifest is updated for the one feature, and
    the file written is read and updated for the other, the lines of the
    file are the writes of the second update for the writes of the
    first; every line the manifest had is still there, and each template
    line has its uncommented copy for the one feature and for the
    other. *)
Theorem manifest_updates_add_up (f g t : string) :
  is_identifier f = true -> is_identifier g = true ->
  readlines (update_toml_text g (update_toml_text f (t ++ nl)))
  = update_toml g (update_toml f (readlines (t ++ nl)))
  /\ forall line,
      In line (readlines (t ++ nl)) ->
      In line (readlines (update_toml_text g (update_toml_text f (t ++ nl))))
      /\ forall u,
          strip_prefix "# " line = Some u -> contains "$CUT" line = true ->
          In (replace "$CUT" f u)
            (readlines (update_toml_text g (update_toml_text f (t ++ nl))))
          /\ In (replace "$CUT" g u)
               (readlines (update_toml_text g (update_toml_text f (t ++ nl)))).
Proof.
  intros Hf Hg.
  apply identifier_no_newline in Hf, Hg.
  assert (E1 : readlines (update_toml_text f (t ++ nl))
               = update_toml f (readlines (t ++ nl)))
    by (apply update_toml_text_lines; [exact Hf | apply readlines_terminated]).
  assert (E : readlines (update_toml_text g (update_toml_text f (t ++ nl)))
              = update_toml g (update_toml f (readlines (t ++ nl)))).
  { rewrite update_toml_text_lines; [now rewrite E1 | exact Hg |].
    rewrite E1. apply update_toml_lines; [exact Hf | apply readlines_terminated]. }
  split; [exact E |].
  intros line Hl. rewrite E. split.
  - now do 2 apply update_toml_keeps.
  - intros u Hu Hc. split.
    + apply update_toml_keeps. now apply update_toml_activates with line.
    + apply update_toml_activates with line; [| assumption..].
      now apply update_toml_keeps.
Qed.

Lemma manifest_updates_add_up_witness :
  readlines (update_toml_text "g"
               (update_toml_text "f" (("[deps]" ++ nl ++ "# x-$CUT = 1") ++ nl)))
  = ["[deps]" ++ nl; "x-f = 1" ++ nl; "x-g = 1" ++ nl; "# x-$CUT = 1" ++ nl].
Proof.
  destruct (manifest_updates_add_up "f" "g" ("[deps]" ++ nl ++ "# x-$CUT = 1"))
    as [E _].
  - reflexivity.
  - reflexivity.
  - rewrite E. reflexivity.
Defined.

(* ================================================================= *)
(** * The implementation module *)

Lemma contains_unfold (pat s : string) :
  contains pat s
  = match strip_prefix pat s with
    | Some _ => true
    | None => match s with "" => false | String _ s' => contains pat s' end
    end.
Proof. destruct s; reflexivity. Qed.

Lemma contains_app (pat x y : string) : contains pat (x ++ pat ++ y) = true.
Proof.
  induction x as [| c x IH]; rewrite contains_unfold.
  - cbn [append]. now rewrite strip_prefix_app.
  - cbn [append]. destruct (strip_prefix pat (String c (x ++ pat ++ y))); [reflexivity |].
    exact IH.
Qed.

Lemma split_use_spec (s x y : string) :
  split_use s = Some (x, y) ->
  s = x ++ "_latest::" ++ y /\ has_newline x = false.
Proof.
  revert x. induction s as [| c s IH]; intros x H; [discriminate H |].
  cbn [split_use] in H.
  destruct (c =? newline)%char eqn:Ec.
  - destruct (strip_prefix "_latest::" (String c s)) as [y' |] eqn:E; [| discriminate H].
    injection H as <- <-. apply strip_prefix_spec in E. now split.
  - destruct (split_use s) as [[x' y'] |].
    + injection H as <- <-. destruct (IH x' eq_refl) as [-> Hx]. split; [reflexivity |].
      apply has_newline_false. apply has_newline_false in Hx.
      cbn [forallb_string]. now rewrite Ec, Hx.
    + destruct (strip_prefix "_latest::" (String c s)) as [y' |] eqn:E; [| discriminate H].
      injection H as <- <-. apply strip_prefix_spec in E. now split.
Qed.

Lemma split_use_None (s : string) :
  contains "_latest::" s = false -> split_use s = None.
Proof.
  intros H. destruct (split_use s) as [[x y] |] eqn:E; [| reflexivity].
  apply split_use_spec in E as [-> _]. now rewrite contains_app in H.
Qed.

Lemma contains_after_marker (y : string) :
  contains "_latest::" y = false -> contains "_latest::" ("latest::" ++ y) = false.
Proof. intros H. cbn. exact H. Qed.

(** The greedy group: of the markers on the line, the last one is taken. *)
Lemma split_use_last (x y : string) :
  has_newline x = false -> contains "_latest::" y = false ->
  split_use (x ++ "_latest::" ++ y) = Some (x, y).
Proof.
  intros Hx Hy. apply has_newline_false in Hx.
  induction x as [| c x IH].
  - change ("" ++ "_latest::" ++ y) with (String "_" ("latest::" ++ y)).
    cbn [split_use].
    rewrite (split_use_None ("latest::" ++ y)) by now apply contains_after_marker.
    change (String "_" ("latest::" ++ y)) with ("_latest::" ++ y).
    rewrite strip_prefix_app. reflexivity.
  - cbn [forallb_string] in Hx. apply andb_prop in Hx as [Hc Hx].
    apply negb_true_iff in Hc.
    change (String c x ++ "_latest::" ++ y) with (String c (x ++ "_latest::" ++ y)).
    cbn [split_use]. rewrite Hc. now rewrite (IH Hx).
Qed.

Lemma rewrite_use_plain (feature line : string) :
  strip_prefix "use " line = None \/ contains "_latest::" line = false ->
  rewrite_use feature line = line.
Proof.
  unfold rewrite_use. intros [-> | H]; [reflexivity |].
  destruct (strip_prefix "use " line) as [s |] eqn:E; [| reflexivity].
  apply strip_prefix_spec in E. subst line.
  rewrite split_use_None; [reflexivity |]. exact H.
Qed.

(** X14.  On an import of a [_latest] crate the marker is renamed to
    the feature, an identifier, and only the last marker of the line:
    what is before it is kept as it is, with any [_latest::] it has. *)
Theorem last_marker_is_renamed (feature x y : string) :
  is_identifier feature = true ->
  has_newline x = false -> contains "_latest::" y = false ->
  rewrite_use feature ("use " ++ x ++ "_latest::" ++ y)
  = "use " ++ x ++ "_" ++ feature ++ "::" ++ y.
Proof.
  intros _ Hx Hy. unfold rewrite_use.
  rewrite strip_prefix_app. now rewrite split_use_last.
Qed.

Lemma last_marker_is_renamed_witness :
  rewrite_use "feat" ("use " ++ "a_latest::b" ++ "_latest::" ++ ("c;" ++ nl))
  = "use " ++ "a_latest::b" ++ "_" ++ "feat" ++ "::" ++ ("c;" ++ nl).
Proof.
  apply (last_marker_is_renamed "feat" "a_latest::b" ("c;" ++ nl)); reflexivity.
Defined.

(** X15.  A module none of whose lines is an import with a [_latest::]
    marker is copied as it is, for a feature name that is an
    identifier. *)
Theorem module_without_markers_copied (feature text : string) :
  is_identifier feature = true ->
  (forall line, In line (readlines text) ->
     strip_prefix "use " line = None \/ contains "_latest::" line = false) ->
  generate_impls_text feature text = text.
Proof.
  intros _ H. unfold generate_impls_text, generate_impls.
  rewrite <- (readlines_join text) at 2. f_equal.
  induction (readlines text) as [| l ls IH]; [reflexivity |].
  cbn [map]. rewrite rewrite_use_plain by (apply H; now left).
  f_equal. apply IH. intros line Hl. apply H. now right.
Qed.

Lemma module_without_markers_copied_witness :
  generate_impls_text "feat"
    ("pub use a_latest::X;" ++ nl ++ "use std::sync::Arc;" ++ nl ++ "fn f() {}")
  = "pub use a_latest::X;" ++ nl ++ "use std::sync::Arc;" ++ nl ++ "fn f() {}".
Proof.
  apply module_without_markers_copied; [reflexivity |].
  intros line Hl. vm_compute in Hl.
  destruct Hl as [<- | [<- | [<- | []]]];
    [left; reflexivity | right; reflexivity | left; reflexivity].
Defined.

Lemma rewrite_use_line (feature line : string) :
  has_newline feature = false -> is_line line -> is_line (rewrite_use feature line).
Proof.
  intros Hf Hl. unfold rewrite_use.
  destruct (strip_prefix "use " line) as [s |] eqn:E; [| exact Hl].
  destruct (split_use s) as [[x y] |] eqn:Es; [| exact Hl].
  destruct Hl as (body & -> & Hb).
  apply strip_prefix_line in E as (r & -> & ->); [| reflexivity].
  apply split_use_spec in Es as [Es Hx].
  assert (Ey : strip_prefix (x ++ "_latest::") (r ++ nl) = Some y).
  { rewrite Es. rewrite <- append_assoc. apply strip_prefix_app. }
  apply strip_prefix_line in Ey as (y' & -> & ->).
  2:{ apply no_newline_app. now split. }
  apply no_newline_app in Hb as [_ Hb].
  apply no_newline_app in Hb as [_ Hy].
  apply is_line_app; [reflexivity |].
  apply is_line_app; [exact Hx |].
  apply is_line_app; [reflexivity |].
  apply is_line_app; [exact Hf |].
  apply is_line_app; [reflexivity |].
  now exists y'.
Qed.

(** X16.  The copy of a module that ends with a newline, for a feature
    name that is an identifier, has the lines of the module one for one:
    each line of the copy is the line of the module at its place, with
    its import renamed. *)
Theorem copy_has_the_lines (feature t : string) :
  is_identifier feature = true ->
  readlines (generate_impls_text feature (t ++ nl))
  = map (rewrite_use feature) (readlines (t ++ nl)).
Proof.
  intros Hf. apply identifier_no_newline in Hf.
  unfold generate_impls_text, generate_impls.
  apply readlines_of_lines.
  apply Forall_map. eapply Forall_impl; [| apply readlines_terminated].
  intros line Hl. now apply rewrite_use_line.
Qed.

Lemma copy_has_the_lines_witness :
  readlines (generate_impls_text "f" (("use a_latest::X;" ++ nl ++ "fn g() {}") ++ nl))
  = ["use a_f::X;" ++ nl; "fn g() {}" ++ nl].
Proof.
  rewrite (copy_has_the_lines "f" ("use a_latest::X;" ++ nl ++ "fn g() {}")).
  - reflexivity.
  - reflexivity.
Defined.
